(** * dsa-wiki-crawler: link normalisation, link rewriting and the crawl loop

    A shallow embedding of the crawler ([main.ts]) and the proofs about it.
    The model follows the later revision of the file, which has the
    breadcrumb trail, the markdown repairs and the entry-point file.  The
    earlier revision ([src/main.ts]) lacks these three, and its
    [normalizeLink] has two replacements instead of three; it is kept as
    [normalizeLink_v1].

    Strings.  A JavaScript string is a sequence of UTF-16 code units; here a
    string is a [string] of the standard library, i.e. a sequence of
    8-bit code units (the Latin-1 range).  Every literal of the source is
    ASCII, so the searches and replacements below behave on these strings as
    they do in JavaScript; code units above 255 (among them the line
    separators U+2028 and U+2029) are outside the alphabet.

    Effects.  The browser, the sanitiser, the markdown converter, the
    pretty-printer and the file system are the fields of a [World]; the
    program runs in a state and exception monad whose state is the set
    [alreadyParsedIds] and the trace of what was done.  The loop
    [do .. while (true)] of [main] takes fuel. *)

From Stdlib Require Import Ascii.
From stdpp Require Import base option list strings gmap.

(** ** The JavaScript string primitives the crawler calls *)

Module JS.

(** The line feed, written <<\n>> in the source. *)
Definition LF : ascii := ascii_of_nat 10.
Definition CR : ascii := ascii_of_nat 13.
Definition nl : string := String LF "".

(** [all p s]: every code unit of [s] satisfies [p]. *)
Fixpoint all (p : ascii → bool) (s : string) : bool :=
  match s with
  | EmptyString => true
  | String c s' => p c && all p s'
  end.

(** [startsWith s pat]: [pat] is a prefix of [s]. *)
Fixpoint startsWith (s pat : string) : bool :=
  match pat, s with
  | EmptyString, _ => true
  | String _ _, EmptyString => false
  | String a pat', String b s' => Ascii.eqb a b && startsWith s' pat'
  end.

Fixpoint drop (n : nat) (s : string) : string :=
  match n, s with
  | O, _ => s
  | S _, EmptyString => EmptyString
  | S n', String _ s' => drop n' s'
  end.

Fixpoint take (n : nat) (s : string) : string :=
  match n, s with
  | O, _ => EmptyString
  | S _, EmptyString => EmptyString
  | S n', String c s' => String c (take n' s')
  end.

(** [cut pat s] locates the first occurrence of [pat] in [s], as
    [s.indexOf(pat)] does, and returns what stands before and after it. *)
Fixpoint cut (pat s : string) : option (string * string) :=
  if startsWith s pat then Some (EmptyString, drop (String.length pat) s)
  else match s with
       | EmptyString => None
       | String c s' =>
           match cut pat s' with
           | Some (before, after) => Some (String c before, after)
           | None => None
           end
       end.

Definition includes (s pat : string) : bool :=
  match cut pat s with Some _ => true | None => false end.

(** GetSubstitution of ECMA-262 for a pattern that is a string: there are
    no captures, so of the <<$>> forms only <<$$>>, <<$&>>, <<$`>> and
    <<$'>> are expanded, and every other <<$>> stands for itself. *)
Fixpoint getSubstitution (matched before after template : string) : string :=
  match template with
  | EmptyString => EmptyString
  | String a t1 =>
      if Ascii.eqb a "$"%char then
        match t1 with
        | String c t2 =>
            if Ascii.eqb c "$"%char then String "$"%char (getSubstitution matched before after t2)
            else if Ascii.eqb c "&"%char then matched +:+ getSubstitution matched before after t2
            else if Ascii.eqb c "`"%char then before +:+ getSubstitution matched before after t2
            else if Ascii.eqb c "'"%char then after +:+ getSubstitution matched before after t2
            else String a (getSubstitution matched before after t1)
        | EmptyString => String a EmptyString
        end
      else String a (getSubstitution matched before after t1)
  end.

(** [s.replace(pat, repl)] with a string pattern: only the first occurrence
    is replaced. *)
Definition replace (s pat repl : string) : string :=
  match cut pat s with
  | None => s
  | Some (before, after) =>
      before +:+ getSubstitution pat before after repl +:+ after
  end.

(** [s.split(sep)] for a separator of one code unit: the result is never
    empty. *)
Fixpoint split (sep : ascii) (s : string) : list string :=
  match s with
  | EmptyString => [EmptyString]
  | String c s' =>
      if Ascii.eqb c sep then EmptyString :: split sep s'
      else match split sep s' with
           | seg :: segs => String c seg :: segs
           | [] => [String c EmptyString]
           end
  end.

(** [a.pop()] on a non-empty array: its last element. *)
Definition pop (a : list string) : string := List.last a EmptyString.

(** [a.join(sep)]. *)
Fixpoint join (sep : string) (a : list string) : string :=
  match a with
  | [] => EmptyString
  | [x] => x
  | x :: rest => x +:+ sep +:+ join sep rest
  end.

(** White space of [String.prototype.trim] in the 8-bit range: TAB, LF, VT,
    FF, CR, SP and NBSP. *)
Definition isWhiteSpace (c : ascii) : bool :=
  let n := nat_of_ascii c in
  ((9 <=? n) && (n <=? 13)) || (n =? 32) || (n =? 160).

Fixpoint trimStart (s : string) : string :=
  match s with
  | EmptyString => EmptyString
  | String c s' => if isWhiteSpace c then trimStart s' else s
  end.

Fixpoint trimEnd (s : string) : string :=
  match s with
  | EmptyString => EmptyString
  | String c s' =>
      match trimEnd s' with
      | EmptyString => if isWhiteSpace c then EmptyString else String c EmptyString
      | t => String c t
      end
  end.

Definition trim (s : string) : string := trimEnd (trimStart s).

End JS.

(** ** Constants of [main.ts] *)

Definition ID_PREFIX : string := "dsa-rule-".
Definition OUTPUT_DIRECTORY : string := "result".
Definition PREFIX : string := "https://ulisses-regelwiki.de/".
Definition ENTRY_POINTS : list string :=
  [ "index.php/regeln.html";
    "index.php/spezies.html";
    "index.php/kulturen.html";
    "index.php/professionen.html";
    "index.php/sonderfertigkeiten.html";
    "index.php/vor-und-nachteile.html";
    "index.php/magie.html";
    "index.php/goetterwirken.html";
    "index.php/ruestkammer.html";
    "index.php/bestiarium.html";
    "index.php/herbarium.html";
    "index.php/GifteundKrankheiten.html";
    "index.php/WdV18.html" ].

(** ** Identifier normalisation *)

(** [normalizeLink]: three chained [replace] calls, each removing the first
    occurrence of one spelling of the wiki's host. *)
Definition normalizeLink (link : string) : string :=
  JS.replace
    (JS.replace
       (JS.replace link "https://ulisses-regelwiki.de/" "")
       "http://ulisses-regelwiki.de/" "")
    "ulisses-regelwiki.de/" "".

(** The earlier revision ([src/main.ts]) has the first two calls only. *)
Definition normalizeLink_v1 (link : string) : string :=
  JS.replace
    (JS.replace link "https://ulisses-regelwiki.de/" "")
    "http://ulisses-regelwiki.de/" "".

(** [convertLinkToId]: the last segment of the normalised link, without the
    first <<.html>> in it. *)
Definition convertLinkToId (linkTarget : string) : string :=
  let subject := JS.split "/"%char (normalizeLink linkTarget) in
  JS.replace (JS.pop subject) ".html" "".

Definition linkToId (link : string) : string :=
  ID_PREFIX +:+ convertLinkToId link.

Definition sanitizeTitle (title : string) : string :=
  JS.replace title " - DSA Regel Wiki" "".

(** ** Regular expressions

    The four regular expressions of the source use literals, character
    classes, greedy [*] and [+] over a character class, concatenation and
    capture groups that are not nested.  The matcher is the backtracking one of
    ECMA-262: a continuation [k] stands for the rest of the pattern, and a
    greedy repetition offers it the longest repetition first. *)

Module Regex.

Inductive regex : Type :=
| Chr (c : ascii)
| Class (p : ascii → bool)
| Star (p : ascii → bool)
| Plus (p : ascii → bool)
| Seq (r1 r2 : regex)
| Group (r : regex).

Infix "@@" := Seq (at level 60, right associativity).

Fixpoint mem (c : ascii) (cs : string) : bool :=
  match cs with
  | EmptyString => false
  | String d cs' => Ascii.eqb c d || mem c cs'
  end.

(** <<[abc]>> and <<[^abc]>>. *)
Definition oneOf (cs : string) : ascii → bool := fun c => mem c cs.
Definition noneOf (cs : string) : ascii → bool := fun c => negb (mem c cs).

(** <<.>> without the [s] flag: any code unit but a line terminator. *)
Definition dot : ascii → bool :=
  fun c => negb (Ascii.eqb c JS.LF || Ascii.eqb c JS.CR).

(** Greedy repetition of a class: the longest run is tried first, then
    shorter ones. *)
Fixpoint star {A} (p : ascii → bool) (s : string) (k : string → option A)
  : option A :=
  match s with
  | String c s' =>
      if p c then
        match star p s' k with
        | Some r => Some r
        | None => k s
        end
      else k s
  | EmptyString => k s
  end.

(** What was read between the input [s] and its suffix [rest]. *)
Definition consumed (s rest : string) : string :=
  JS.take (String.length s - String.length rest) s.

Fixpoint run {A} (r : regex) (s : string) (caps : list string)
    (k : string → list string → option A) : option A :=
  match r with
  | Chr c =>
      match s with
      | String d s' => if Ascii.eqb c d then k s' caps else None
      | EmptyString => None
      end
  | Class p =>
      match s with
      | String d s' => if p d then k s' caps else None
      | EmptyString => None
      end
  | Star p => star p s (fun rest => k rest caps)
  | Plus p =>
      match s with
      | String d s' => if p d then star p s' (fun rest => k rest caps) else None
      | EmptyString => None
      end
  | Seq r1 r2 => run r1 s caps (fun rest caps' => run r2 rest caps' k)
  | Group r1 =>
      run r1 s caps (fun rest caps' => k rest (caps' ++ [consumed s rest]))
  end.

(** A match: the text before it, the matched text, the captures, the text
    after it. *)
Record Match := { before : string; matched : string;
                  captures : list string; after : string }.

(** A match that starts at the first code unit of [s]. *)
Definition matchHere (r : regex) (s : string) : option Match :=
  run r s [] (fun rest caps =>
    Some {| before := ""; matched := consumed s rest;
            captures := caps; after := rest |}).

(** [r.exec(s)] for a regular expression without the [g] flag: the leftmost
    match. *)
Fixpoint exec (r : regex) (s : string) : option Match :=
  match matchHere r s with
  | Some m => Some m
  | None =>
      match s with
      | EmptyString => None
      | String c s' =>
          match exec r s' with
          | Some m => Some {| before := String c (before m); matched := matched m;
                              captures := captures m; after := after m |}
          | None => None
          end
      end
  end.

(** All matches from left to right, each search starting where the previous
    match ended (one code unit further after an empty match), and the text
    after the last one.  Every round reads at least one code unit, so
    [S (length s)] rounds are enough. *)
Fixpoint scan (fuel : nat) (r : regex) (s : string) : list Match * string :=
  match fuel with
  | O => ([], s)
  | S fuel' =>
      match exec r s with
      | None => ([], s)
      | Some m =>
          match matched m, after m with
          | EmptyString, EmptyString => ([m], EmptyString)
          | EmptyString, String c rest =>
              match scan fuel' r rest with
              | (m' :: ms, tail) =>
                  (m :: {| before := String c (before m'); matched := matched m';
                           captures := captures m'; after := after m' |} :: ms, tail)
              | ([], tail) => ([m], String c tail)
              end
          | String _ _, rest =>
              let '(ms, tail) := scan fuel' r rest in (m :: ms, tail)
          end
      end
  end.

Definition matches (r : regex) (s : string) : list Match * string :=
  scan (S (String.length s)) r s.

(** [s.match(r)] with the [g] flag: the matched texts (the empty list stands
    for [null]). *)
Definition match_g (r : regex) (s : string) : list string :=
  map matched (matches r s).1.

(** [s.replace(r, f)] with the [g] flag and a replacer function, which is
    given the matched text and the captures. *)
Definition replace_g (r : regex) (f : string → list string → string)
    (s : string) : string :=
  let '(ms, tail) := matches r s in
  foldr (fun m acc => before m +:+ f (matched m) (captures m) +:+ acc) tail ms.

End Regex.

Import Regex(regex(..), oneOf, noneOf, dot).
Infix "@@" := Regex.Seq (at level 60, right associativity).

(** ** Link extraction *)

Module Link.
Record t := { text : string; wholeLink : string; link : string }.
End Link.

(** <</\[([^\[]+)\](\([^[\[\])]*\))/gm>> *)
Definition regexMdLinks : regex :=
  Chr "[" @@ Group (Plus (noneOf "[")) @@ Chr "]"
  @@ Group (Chr "(" @@ Star (noneOf "[[])") @@ Chr ")").

(** The regular expression [singleMatch] of [parseLinks]: an opening bracket,
    group 1 (one or more code units other than an opening bracket), a closing
    bracket, an opening parenthesis, group 2 (a greedy run of <<.>>), a
    closing parenthesis. *)
Definition singleMatch : regex :=
  Chr "[" @@ Group (Plus (noneOf "[")) @@ Chr "]" @@ Chr "("
  @@ Group (Star dot) @@ Chr ")".

(** What can be thrown while a page is processed. *)
Inductive Error :=
| NavigationError            (* page.goto / page.evaluate reject *)
| URIError                   (* decodeURIComponent on a malformed sequence *)
| TypeError_not_iterable     (* destructuring the null of a failed exec *)
| TypeError_null_replace     (* null.replace(..) in normalizeLink *)
| FormatError                (* prettier.format throws *)
| WriteError.                (* fs.writeFileSync throws *)

Inductive Result (A : Type) :=
| Ok (a : A)
| Err (e : Error).
Arguments Ok {A} a.
Arguments Err {A} e.

(** [const [, text, link] = singleMatch.exec(m)]: a [TypeError] when [exec]
    returns [null]. *)
Definition destructure (m : string) : Result Link.t :=
  match Regex.exec singleMatch m with
  | Some r =>
      let text := nth 0 (Regex.captures r) "" in
      let link := nth 1 (Regex.captures r) "" in
      Ok {| Link.text := text; Link.wholeLink := link;
            Link.link := normalizeLink link |}
  | None => Err TypeError_not_iterable
  end.

Fixpoint parseLinks_loop (ms : list string) (results : list Link.t)
  : Result (list Link.t) :=
  match ms with
  | [] => Ok results
  | m :: ms' =>
      match destructure m with
      | Ok l => parseLinks_loop ms' (results ++ [l])
      | Err e => Err e
      end
  end.

(** [parseLinks]: [text.match] gives [null] when nothing matches, and the
    empty [results] is returned; otherwise every matched text is taken apart
    by [singleMatch]. *)
Definition parseLinks (text : string) : Result (list Link.t) :=
  parseLinks_loop (Regex.match_g regexMdLinks text) [].

(** ** The page processor *)

(** <</\* *\n*([^\*]+) *\*/g>> *)
Definition regexEmphasis : regex :=
  Chr "*" @@ Star (oneOf " ") @@ Star (oneOf JS.nl)
  @@ Group (Plus (noneOf "*")) @@ Star (oneOf " ") @@ Chr "*".

(** <</\\#/g>> *)
Definition regexEscapedHash : regex := Chr "\" @@ Chr "#".

(** The two repairs of the converted markdown (lines 103 to 116). *)
Definition repairMarkdown (markdown : string) : string :=
  Regex.replace_g regexEscapedHash (fun _ _ => "-")
    (Regex.replace_g regexEmphasis
       (fun _ caps => "*" +:+ nth 0 caps "" +:+ "*") markdown).

(** One turn of the rewriting loop (lines 120 to 126). *)
Definition rewriteLink (normalizedMarkdown : string) (l : Link.t) : string :=
  JS.replace normalizedMarkdown
    ("[" +:+ Link.text l +:+ "](" +:+ Link.wholeLink l +:+ ")")
    ("[" +:+ Link.text l +:+ "](" +:+ ID_PREFIX
         +:+ convertLinkToId (Link.link l) +:+ ")").

(** Lines 101 to 126 of [parseSite]: the links are extracted from the
    markdown as converted, the markdown is repaired, and the links are
    rewritten in the repaired markdown, in the order of extraction. *)
Definition normalizeMarkdown (markdown : string) : Result (list Link.t * string) :=
  match parseLinks markdown with
  | Ok links => Ok (links, fold_left rewriteLink links (repairMarkdown markdown))
  | Err e => Err e
  end.

(** What [page.evaluate] returns. An anchor of the breadcrumb trail without
    [href] has [None] ([null] in the source). *)
Record Content := {
  content_id : string;
  content_title : string;
  contentCenter : string;
  contentMain : string;
  breadcrumb : list (string * option string);
}.

(** The collaborators of the crawler: the browser, the HTML sanitiser and the
    markdown converter, the pretty-printer, the file system, and the built-in
    [decodeURIComponent]. *)
Record World := {
  (** [page.goto(url)] followed by [page.evaluate(..)]; [None] when one of
      them rejects *)
  evaluate : string → option Content;
  (** [None] for a [URIError] *)
  decodeURIComponent : string → option string;
  (** [sanitizeHtml(html, options)], with the options of line 94 *)
  sanitizeHtml : string → string;
  (** [parseMarkdown(html)], the Turndown conversion *)
  parseMarkdown : string → string;
  (** [prettier.format(source, options)]; [None] when it throws *)
  prettier_format : string → option string;
  (** whether [fs.writeFileSync] succeeds on this path *)
  writable : string → bool;
}.

Module Entry.
Record t := { id : string; title : string }.
End Entry.

(** What the program does, in order. [AddParsed] is [alreadyParsedIds.add]. *)
Inductive Event :=
| Goto (url : string)
| WriteFile (path content : string) (ok : bool)
| AddParsed (link : string)
| LogEntryPoint (id : string)
| LogStep (i : nat) (link : string)
| Close.

Record State := {
  alreadyParsedIds : gset string;
  trace : list Event;
}.

Definition initial : State := {| alreadyParsedIds := ∅; trace := [] |}.

Inductive Outcome (A : Type) :=
| Returned (a : A) (st : State)
| Thrown (e : Error) (st : State)
| OutOfFuel (st : State).
Arguments Returned {A} a st.
Arguments Thrown {A} e st.
Arguments OutOfFuel {A} st.

Definition final {A} (o : Outcome A) : State :=
  match o with
  | Returned _ st | Thrown _ st | OutOfFuel st => st
  end.

Definition M (A : Type) : Type := State → Outcome A.

Definition throw {A} (e : Error) : M A := fun st => Thrown e st.

#[global] Instance M_ret : MRet M := fun A a st => Returned a st.
#[global] Instance M_bind : MBind M := fun A B f m st =>
  match m st with
  | Returned a st' => f a st'
  | Thrown e st' => Thrown e st'
  | OutOfFuel st' => OutOfFuel st'
  end.

Definition emit (ev : Event) : M unit :=
  fun st => Returned tt {| alreadyParsedIds := alreadyParsedIds st;
                           trace := trace st ++ [ev] |}.

Definition markParsed (link : string) : M unit :=
  fun st => Returned tt {| alreadyParsedIds := {[ link ]} ∪ alreadyParsedIds st;
                           trace := trace st ++ [AddParsed link] |}.

Definition liftOption {A} (e : Error) (o : option A) : M A :=
  match o with Some a => mret a | None => throw e end.

Definition liftResult {A} (r : Result A) : M A :=
  match r with Ok a => mret a | Err e => throw e end.

(** [fs.writeFileSync(path, content)] *)
Definition writeFileSync (w : World) (path content : string) : M unit :=
  if writable w path then emit (WriteFile path content true)
  else (emit (WriteFile path content false);; throw WriteError).

(** [path.join(dir, name)] for a [name] without separators. *)
Definition path_join (dir name : string) : string := dir +:+ "/" +:+ name.

(** The breadcrumb trail as links (lines 136 to 141): [linkToId] of a [null]
    target calls [replace] on [null]. *)
Fixpoint breadcrumbLinks (crumbs : list (string * option string))
  : Result (list string) :=
  match crumbs with
  | [] => Ok []
  | (name, href) :: rest =>
      match href with
      | None => Err TypeError_null_replace
      | Some link =>
          let linkId := linkToId link in
          match breadcrumbLinks rest with
          | Ok ls => Ok (("[" +:+ name +:+ "](" +:+ linkId +:+ ")") :: ls)
          | Err e => Err e
          end
      end
  end.

Definition frontMatter (fsId title : string) (tags : list string) : string :=
  "---" +:+ JS.nl +:+ "id: " +:+ fsId +:+ JS.nl +:+ "title: " +:+ title +:+ " "
  +:+ JS.nl +:+ "tags: [" +:+ JS.join ", " tags +:+ "]" +:+ JS.nl
  +:+ "is_entry_point: false" +:+ JS.nl +:+ "---" +:+ JS.nl +:+ JS.nl.

(** The markdown of a page (lines 92 to 99). *)
Definition markdownOf (w : World) (content : Content) : string :=
  JS.trim (parseMarkdown w
             (sanitizeHtml w
                (contentCenter content +:+ JS.nl +:+ JS.nl +:+ contentMain content))).

Definition parseSite (w : World) (link : string)
  : M (Entry.t * list Link.t) :=
  emit (Goto (PREFIX +:+ link));;
  content ← liftOption NavigationError (evaluate w (PREFIX +:+ link));
  decoded ← liftOption URIError (decodeURIComponent w (content_id content));
  let id := convertLinkToId decoded in
  let title := sanitizeTitle (content_title content) in
  let markdown := markdownOf w content in
  '(links, normalizedMarkdown) ← liftResult (normalizeMarkdown markdown);
  let fsId := ID_PREFIX +:+ id in
  crumbs ← liftResult (breadcrumbLinks (breadcrumb content));
  formatted ← liftOption FormatError
    (prettier_format w (JS.join " > " crumbs +:+ JS.nl +:+ JS.nl +:+ normalizedMarkdown));
  writeFileSync w (path_join OUTPUT_DIRECTORY (fsId +:+ ".md"))
    (frontMatter fsId title (map fst (breadcrumb content)) +:+ formatted);;
  markParsed link;;
  mret ({| Entry.id := fsId; Entry.title := title |}, links).

Definition writeEntryPointFile (w : World) (entryPoints : list Entry.t) : M unit :=
  let id := ID_PREFIX +:+ "start" in
  let content :=
    "---" +:+ JS.nl +:+ "id: " +:+ id +:+ JS.nl +:+ "title: DSA Wiki" +:+ JS.nl
    +:+ "tags: []" +:+ JS.nl +:+ "is_entry_point: true" +:+ JS.nl +:+ "---" +:+ JS.nl
    +:+ "# DSA Wiki" +:+ JS.nl +:+ JS.nl
    +:+ JS.join JS.nl
          (map (fun e => "- [" +:+ Entry.title e +:+ "](" +:+ Entry.id e +:+ ")")
               entryPoints)
    +:+ JS.nl +:+ JS.nl in
  writeFileSync w (path_join OUTPUT_DIRECTORY (id +:+ ".md")) content.

(** ** The crawl scheduler *)

(** The loop over the entry points (lines 185 to 190). *)
Fixpoint seed (w : World) (entries : list string)
    (links : list Link.t) (entryPoints : list Entry.t)
  : M (list Link.t * list Entry.t) :=
  match entries with
  | [] => mret (links, entryPoints)
  | entryPointLink :: rest =>
      '(entryPoint, siteLinks) ← parseSite w entryPointLink;
      emit (LogEntryPoint (Entry.id entryPoint));;
      seed w rest (links ++ siteLinks) (entryPoints ++ [entryPoint])
  end.

(** The [do .. while (true)] loop (lines 196 to 204). [i] is the value of the
    source's [i] after [i = i + 1]; [fuel] bounds the number of turns. *)
Fixpoint drain (w : World) (fuel : nat) (i : nat) (links : list Link.t)
  : M unit :=
  match fuel with
  | O => fun st => OutOfFuel st
  | S fuel' =>
      match links !! i with
      | None => mret tt
      | Some l =>
          fun st =>
            if bool_decide (Link.link l ∈ alreadyParsedIds st)
            then drain w fuel' (S i) links st
            else (emit (LogStep i (Link.link l));;
                  '(_, newLinks) ← parseSite w (Link.link l);
                  drain w fuel' (S i) (links ++ newLinks)) st
      end
  end.

(** [main], for any list of entry points.  Starting the browser and opening
    the page ([puppeteer.launch], [browser.newPage]) are taken to succeed;
    [Close] is [browser.close()], which is not reached after an exception. *)
Definition crawl (entries : list string) (w : World) (fuel : nat) : M unit :=
  '(links, entryPoints) ← seed w entries [] [];
  writeEntryPointFile w entryPoints;;
  drain w fuel 0 links;;
  emit Close.

Definition main (w : World) (fuel : nat) : M unit := crawl ENTRY_POINTS w fuel.

(** [main().catch(..)]: the exit code of the process. *)
Definition exitCode {A} (o : Outcome A) : nat :=
  match o with Thrown _ _ => 1 | _ => 0 end.

(** The links [parseSite] returns for a target; they depend on the site, not
    on the state of the crawl. *)
Definition linksOf (w : World) (target : string) : list Link.t :=
  match parseSite w target initial with
  | Returned (_, links) _ => links
  | _ => []
  end.

(** ** The runs of the scheduler, as a transition system

    What a run of [crawl] does to the state, one action at a time: a page
    that is not in [alreadyParsedIds] is processed to the end, a line is
    logged, the entry-point file is written; and the three ways a run is
    cut short by an exception. *)

Definition push (st : State) (evs : list Event) : State :=
  {| alreadyParsedIds := alreadyParsedIds st; trace := trace st ++ evs |}.

Definition processed (st : State) (link path content : string) : State :=
  {| alreadyParsedIds := {[ link ]} ∪ alreadyParsedIds st;
     trace := trace st ++ [Goto (PREFIX +:+ link); WriteFile path content true;
                           AddParsed link] |}.

Definition isLog (ev : Event) : Prop :=
  match ev with
  | LogEntryPoint _ | LogStep _ _ | Close => True
  | _ => False
  end.

Inductive step : State → State → Prop :=
| step_page st link path content :
    link ∉ alreadyParsedIds st → step st (processed st link path content)
| step_log st ev :
    isLog ev → step st (push st [ev])
| step_write st path content :
    step st (push st [WriteFile path content true]).

Inductive abort : Error → State → State → Prop :=
| abort_page st link e :
    link ∉ alreadyParsedIds st → e ≠ WriteError →
    abort e st (push st [Goto (PREFIX +:+ link)])
| abort_page_write st link path content :
    link ∉ alreadyParsedIds st →
    abort WriteError st
      (push st [Goto (PREFIX +:+ link); WriteFile path content false])
| abort_write st path content :
    abort WriteError st (push st [WriteFile path content false]).

(** An outcome that the transition system allows from [st0]. *)
Definition reaches {A} (st0 : State) (o : Outcome A) : Prop :=
  match o with
  | Returned _ st | OutOfFuel st => rtc step st0 st
  | Thrown e st => ∃ st1, rtc step st0 st1 ∧ abort e st1 st
  end.

Definition isOutOfFuel {A} (o : Outcome A) : bool :=
  match o with OutOfFuel _ => true | _ => false end.

(** What the trace says about the marks, in a state the system reaches. *)
Record Inv (st : State) : Prop := {
  inv_marked : ∀ t, AddParsed t ∈ trace st → t ∈ alreadyParsedIds st;
  inv_fresh : ∀ pre t post,
    trace st = pre ++ Goto (PREFIX +:+ t) :: post → AddParsed t ∉ pre;
  inv_mark_last : ∀ pre t post,
    trace st = pre ++ AddParsed t :: post →
    ∃ pre' path content,
      pre = pre' ++ [Goto (PREFIX +:+ t); WriteFile path content true];
  inv_written : ∀ path content, WriteFile path content false ∉ trace st;
}.

(** What a part of the program adds to the trace: the trace only grows, and
    [browser.close()] is not in what is added. *)
Definition appends {A} (m : M A) : Prop :=
  ∀ st, ∃ tr, trace (final (m st)) = trace st ++ tr ∧ Close ∉ tr.

(** What a part of the program adds to the trace is made of events that
    satisfy [P]. *)
Definition emits (P : Event → Prop) {A} (m : M A) : Prop :=
  ∀ st, ∃ tr, trace (final (m st)) = trace st ++ tr ∧ Forall P tr.

(** A write, if the event is one, is to a file <<dsa-rule-..md>> of the
    output directory itself. *)
Definition isDocument (ev : Event) : Prop :=
  match ev with
  | WriteFile path _ _ =>
      ∃ id, path = OUTPUT_DIRECTORY +:+ "/" +:+ ID_PREFIX +:+ id +:+ ".md"
            ∧ JS.includes id "/" = false
  | _ => True
  end.

(** ** What a regular expression matches

    [Matches r s caps]: the text [s] is in the language of [r], with the
    texts [caps] captured by its groups, in the order in which the groups
    close. *)
Inductive Matches : regex → string → list string → Prop :=
| Matches_Chr c : Matches (Chr c) (String c "") []
| Matches_Class p c : p c = true → Matches (Class p) (String c "") []
| Matches_Star p s : JS.all p s = true → Matches (Star p) s []
| Matches_Plus p s : s ≠ "" → JS.all p s = true → Matches (Plus p) s []
| Matches_Seq r1 r2 s1 s2 caps1 caps2 :
    Matches r1 s1 caps1 → Matches r2 s2 caps2 →
    Matches (Seq r1 r2) (s1 +:+ s2) (caps1 ++ caps2)
| Matches_Group r s caps :
    Matches r s caps → Matches (Group r) s (caps ++ [s]).

(** ** The measure of the draining loop *)

(** The links the pages of [X] will add to the frontier. *)
Definition pending (w : World) (X : gset string) : nat :=
  sum_list_with (λ t, length (linksOf w t)) (elements X).

(** What is left to do: the frontier entries not yet read, and the links
    that the unmarked pages of [U] will add. *)
Definition todo (w : World) (U : gset string)
    (i : nat) (links : list Link.t) (st : State) : nat :=
  (length links - i) + pending w (U ∖ alreadyParsedIds st).

(** Code units with no part in the syntax of links, in the repairs or in the
    replacement patterns of [replace]. *)
Definition plain : ascii → bool := noneOf "[]()*\$".

Definition plainText (s : string) : bool := JS.all plain s.

(** A link target on one line. *)
Definition plainTarget (s : string) : bool := JS.all (λ c, plain c && dot c) s.

(** The markdown of one link. *)
Definition mdLink (text target : string) : string :=
  "[" +:+ text +:+ "](" +:+ target +:+ ")".

(** The proper suffixes of a string. *)
Fixpoint suffixes (s : string) : list string :=
  match s with
  | EmptyString => []
  | String _ s' => s' :: suffixes s'
  end.

(** A pattern of which no proper suffix but the empty one is a prefix: two
    occurrences of it do not overlap. *)
Definition borderFree (pat : string) : bool :=
  forallb (λ q, match q with
                | EmptyString => true
                | String _ _ => negb (JS.startsWith pat q)
                end) (suffixes pat).

(** A text made of links, each after a stretch of text [pre], and of the
    text [post] after the last of them. *)
Fixpoint linksText (items : list (string * string * string)) (post : string)
  : string :=
  match items with
  | [] => post
  | (pre, t, u) :: rest => pre +:+ mdLink t u +:+ linksText rest post
  end.

(** ** Sites used as examples *)

Definition page (pathname title main : string)
    (crumbs : list (string * option string)) : Content :=
  {| content_id := pathname; content_title := title;
     contentCenter := ""; contentMain := main; breadcrumb := crumbs |}.

(** A world whose pages are given by [site], whose HTML is markdown already,
    and where only the paths in [readOnly] cannot be written. *)
Definition world (site : string → option Content) (readOnly : list string) : World :=
  {| evaluate := site;
     decodeURIComponent := Some;
     sanitizeHtml := fun html => html;
     parseMarkdown := fun html => html;
     prettier_format := Some;
     writable := fun path => negb (bool_decide (path ∈ readOnly)) |}.

(** Two pages that link to each other. *)
Definition siteAB (url : string) : option Content :=
  if String.eqb url "https://ulisses-regelwiki.de/index.php/a.html"
  then Some (page "/index.php/a.html" "A - DSA Regel Wiki"
               "to [B](https://ulisses-regelwiki.de/index.php/b.html)" [])
  else if String.eqb url "https://ulisses-regelwiki.de/index.php/b.html"
  then Some (page "/index.php/b.html" "B - DSA Regel Wiki"
               "back to [A](https://ulisses-regelwiki.de/index.php/a.html)" [])
  else None.

(** A site where every address is a page, and every page links to the first
    entry point and to two further pages. *)
Definition siteHub (url : string) : option Content :=
  Some (page (JS.drop 28 url) "Seite - DSA Regel Wiki"
          ("[Regeln](https://ulisses-regelwiki.de/index.php/regeln.html), "
           +:+ "[B](index.php/b.html) und [C](index.php/c.html)")
          [("Start", Some "index.php/regeln.html")]).

(** A page whose breadcrumb trail has an anchor without [href]. *)
Definition siteNoHref (url : string) : option Content :=
  Some (page "/index.php/regeln.html" "Regeln - DSA Regel Wiki" "Text"
          [("Start", Some "index.php/regeln.html"); ("Hier", None)]).

(** The pages that were opened, in order. *)
Definition gotos (tr : list Event) : list string :=
  omap (fun ev => match ev with Goto url => Some url | _ => None end) tr.

#[global] Instance Event_eq_dec : EqDecision Event.
Proof. solve_decision. Defined.

#[global] Instance Link_eq_dec : EqDecision Link.t.
Proof. solve_decision. Defined.

(** * Properties *)

(** ** Strings *)

Section StringFacts.

Lemma str_app_nil_l (s : string) : "" +:+ s = s.
Proof. reflexivity. Qed.

Lemma str_app_cons c (s t : string) : String c s +:+ t = String c (s +:+ t).
Proof. reflexivity. Qed.

Lemma str_app_nil_r (s : string) : s +:+ "" = s.
Proof. induction s as [|c s IH]; [done | by rewrite str_app_cons, IH]. Qed.

Lemma str_app_assoc (a b c : string) : (a +:+ b) +:+ c = a +:+ b +:+ c.
Proof. induction a as [|x a IH]; [done | by rewrite !str_app_cons, IH]. Qed.

Lemma str_length_app (a b : string) :
  String.length (a +:+ b) = String.length a + String.length b.
Proof. induction a as [|x a IH]; [done | rewrite str_app_cons; simpl; by rewrite IH]. Qed.

Lemma str_all_app p (a b : string) : JS.all p (a +:+ b) = JS.all p a && JS.all p b.
Proof.
  induction a as [|x a IH]; [done |].
  rewrite str_app_cons. simpl. rewrite IH. by destruct (p x).
Qed.

Lemma all_impl (p q : ascii → bool) s :
  (∀ c, p c = true → q c = true) → JS.all p s = true → JS.all q s = true.
Proof.
  intros Hpq. induction s as [|c s IH]; simpl; [done |].
  intros [Hc Hs]%andb_true_iff. rewrite (Hpq _ Hc). simpl. auto.
Qed.

Lemma startsWith_app (pat s : string) : JS.startsWith (pat +:+ s) pat = true.
Proof.
  induction pat as [|c pat IH]; [by destruct s |].
  rewrite str_app_cons. simpl. by rewrite Ascii.eqb_refl, IH.
Qed.

Lemma startsWith_inv (s pat : string) :
  JS.startsWith s pat = true → s = pat +:+ JS.drop (String.length pat) s.
Proof.
  revert s. induction pat as [|c pat IH]; intros [|d s]; simpl; try done.
  intros [Hc Hs]%andb_true_iff. apply Ascii.eqb_eq in Hc as ->.
  rewrite str_app_cons. f_equal. by apply IH.
Qed.

Lemma str_drop_app (a b : string) : JS.drop (String.length a) (a +:+ b) = b.
Proof. induction a as [|x a IH]; [by destruct b | by rewrite str_app_cons]. Qed.

Lemma str_take_app (a b : string) : JS.take (String.length a) (a +:+ b) = a.
Proof.
  induction a as [|x a IH]; [by destruct b | rewrite str_app_cons; simpl; by rewrite IH].
Qed.

Lemma cut_unfold pat s :
  JS.cut pat s =
  if JS.startsWith s pat then Some ("", JS.drop (String.length pat) s)
  else match s with
       | EmptyString => None
       | String c s' =>
           match JS.cut pat s' with
           | Some (before, after) => Some (String c before, after)
           | None => None
           end
       end.
Proof. by destruct s. Qed.

(** [cut] returns a decomposition of the string around the pattern. *)
Lemma cut_Some pat s b a : JS.cut pat s = Some (b, a) → s = b +:+ pat +:+ a.
Proof.
  revert b a. induction s as [|c s IH]; intros b a; rewrite cut_unfold;
    destruct (JS.startsWith _ pat) eqn:E; try done.
  - intros [= <- <-]. by apply startsWith_inv in E.
  - intros [= <- <-]. by apply startsWith_inv in E.
  - destruct (JS.cut pat s) as [[b' a']|] eqn:Hc; [|done].
    intros [= <- <-]. rewrite str_app_cons. f_equal. by apply IH.
Qed.

Lemma cut_here pat s : JS.cut pat (pat +:+ s) = Some ("", s).
Proof.
  by rewrite cut_unfold, startsWith_app, str_drop_app.
Qed.

(** An occurrence anywhere is found. *)
Lemma cut_occurs pat b a : JS.cut pat (b +:+ pat +:+ a) ≠ None.
Proof.
  induction b as [|c b IH].
  - by rewrite str_app_nil_l, cut_here.
  - rewrite str_app_cons, cut_unfold. destruct (JS.startsWith _ pat); [done |].
    destruct (JS.cut pat (b +:+ pat +:+ a)) as [[??]|]; done.
Qed.

Lemma includes_true s pat :
  JS.includes s pat = true ↔ ∃ b a, s = b +:+ pat +:+ a.
Proof.
  unfold JS.includes. split.
  - destruct (JS.cut pat s) as [[b a]|] eqn:E; [|done].
    intros _. exists b, a. by apply cut_Some.
  - intros (b & a & ->). pose proof (cut_occurs pat b a).
    by destruct (JS.cut pat _).
Qed.

(** A string that does not hold the end of a pattern does not hold the
    pattern. *)
Lemma includes_suffix s pre pat :
  JS.includes s pat = false → JS.includes s (pre +:+ pat) = false.
Proof.
  intros H. destruct (JS.includes s (pre +:+ pat)) eqn:E; [|done].
  apply includes_true in E as (b & a & ->).
  assert (JS.includes (b +:+ (pre +:+ pat) +:+ a) pat = true) as Hin; [|congruence].
  apply includes_true. exists (b +:+ pre), a. by rewrite !str_app_assoc.
Qed.

Lemma cut_None s pat : JS.includes s pat = false → JS.cut pat s = None.
Proof. unfold JS.includes. by destruct (JS.cut pat s). Qed.

Lemma replace_absent s pat repl : JS.includes s pat = false → JS.replace s pat repl = s.
Proof. unfold JS.includes, JS.replace. by destruct (JS.cut pat s) as [[??]|]. Qed.

Lemma replace_here pat s : JS.replace (pat +:+ s) pat "" = s.
Proof. unfold JS.replace. by rewrite cut_here. Qed.



End StringFacts.

(** ** The identifier normaliser *)

Example normalizeLink_https :
  normalizeLink "https://ulisses-regelwiki.de/index.php/regeln.html"
  = "index.php/regeln.html".
Proof. reflexivity. Qed.

Example convertLinkToId_regeln :
  convertLinkToId "http://ulisses-regelwiki.de/index.php/regeln.html" = "regeln".
Proof. reflexivity. Qed.

Example replace_dollar_forms :
  JS.replace "a-b" "-" "[$$|$&|$`|$'|$1]" = "a[$|-|a|b|$1]b".
Proof. reflexivity. Qed.

(** A link without the host is left alone. *)
Lemma normalizeLink_fixed (x : string) :
  JS.includes x "ulisses-regelwiki.de/" = false → normalizeLink x = x.
Proof.
  intros H. unfold normalizeLink.
  rewrite (replace_absent x "https://ulisses-regelwiki.de/")
    by apply (includes_suffix x "https://" _ H).
  rewrite (replace_absent x "http://ulisses-regelwiki.de/")
    by apply (includes_suffix x "http://" _ H).
  by apply replace_absent.
Qed.


Lemma normalizeLink_https_prefix (p : string) :
  JS.includes p "ulisses-regelwiki.de/" = false →
  normalizeLink ("https://ulisses-regelwiki.de/" +:+ p) = p.
Proof.
  intros H. unfold normalizeLink. rewrite replace_here.
  rewrite (replace_absent p "http://ulisses-regelwiki.de/")
    by apply (includes_suffix p "http://" _ H).
  by apply replace_absent.
Qed.

(** The search for a pattern through a literal prefix, decided by
    evaluation up to the end of the literal. *)
Ltac search_through_literal H :=
  unfold JS.includes; rewrite !str_app_cons, str_app_nil_l; simpl;
  rewrite (cut_None _ _ H); done.

Lemma normalizeLink_http_prefix (p : string) :
  JS.includes p "ulisses-regelwiki.de/" = false →
  normalizeLink ("http://ulisses-regelwiki.de/" +:+ p) = p.
Proof.
  intros H. unfold normalizeLink.
  assert (JS.includes p "https://ulisses-regelwiki.de/" = false) as H1
    by apply (includes_suffix p "https://" _ H).
  rewrite (replace_absent _ "https://ulisses-regelwiki.de/")
    by search_through_literal H1.
  rewrite replace_here. by apply replace_absent.
Qed.

Lemma normalizeLink_bare_prefix (p : string) :
  JS.includes p "ulisses-regelwiki.de/" = false →
  normalizeLink ("ulisses-regelwiki.de/" +:+ p) = p.
Proof.
  intros H. unfold normalizeLink.
  assert (JS.includes p "https://ulisses-regelwiki.de/" = false) as H1
    by apply (includes_suffix p "https://" _ H).
  assert (JS.includes p "http://ulisses-regelwiki.de/" = false) as H2
    by apply (includes_suffix p "http://" _ H).
  rewrite (replace_absent _ "https://ulisses-regelwiki.de/")
    by search_through_literal H1.
  rewrite (replace_absent _ "http://ulisses-regelwiki.de/")
    by search_through_literal H2.
  by apply replace_here.
Qed.




(** The earlier revision is not idempotent either. *)
Example normalizeLink_v1_not_idempotent :
  normalizeLink_v1
    (normalizeLink_v1 "https://ulisses-regelwiki.de/https://ulisses-regelwiki.de/a")
  ≠ normalizeLink_v1 "https://ulisses-regelwiki.de/https://ulisses-regelwiki.de/a".
Proof. by vm_compute. Qed.

(** C6 as stated fails: <<example.org>> is not the host [normalizeLink]
    knows. *)
Lemma normalizeLink_example_org_kept :
  normalizeLink "https://example.org/a/b/page.html" ≠ "a/b/page.html".
Proof. by vm_compute. Qed.

(** C6, as the code has it: a link to another host is returned whole by
    [normalizeLink], and [convertLinkToId] still gives its last segment
    without <<.html>>; the path is what is left for a link to the wiki's own
    host. *)
Theorem normalizeLink_example :
  normalizeLink "https://example.org/a/b/page.html"
  = "https://example.org/a/b/page.html"
  ∧ convertLinkToId "https://example.org/a/b/page.html" = "page"
  ∧ normalizeLink "https://ulisses-regelwiki.de/a/b/page.html" = "a/b/page.html"
  ∧ convertLinkToId "https://ulisses-regelwiki.de/a/b/page.html" = "page".
Proof. repeat split; reflexivity. Qed.

Example normalizeLink_v1_example :
  normalizeLink_v1 "https://example.org/a/b/page.html"
  = "https://example.org/a/b/page.html"
  ∧ normalizeLink_v1 "ulisses-regelwiki.de/a/b/page.html"
    = "ulisses-regelwiki.de/a/b/page.html".
Proof. split; reflexivity. Qed.

Lemma NoDup_fmap_inj_on {A B} (f : A → B) (l : list A) (a b : A) :
  NoDup (f <$> l) → a ∈ l → b ∈ l → f a = f b → a = b.
Proof.
  induction l as [|x l IH]; simpl; [by intros _ ?%elem_of_nil |].
  intros [Hx Hl]%NoDup_cons [->|Ha]%elem_of_cons [->|Hb]%elem_of_cons Hf; auto.
  - exfalso. apply Hx. rewrite Hf. by apply list_elem_of_fmap_2.
  - exfalso. apply Hx. rewrite <- Hf. by apply list_elem_of_fmap_2.
Qed.

Lemma entry_point_ids_NoDup : NoDup (convertLinkToId <$> ENTRY_POINTS).
Proof. apply (bool_decide_unpack _). by vm_compute. Qed.

(** C2 as stated fails: pages in two directories with the same file name
    get one identifier. *)
Lemma convertLinkToId_not_injective :
  "index.php/a/seite.html" ≠ "index.php/b/seite.html"
  ∧ convertLinkToId "index.php/a/seite.html"
    = convertLinkToId "index.php/b/seite.html".
Proof. split; [done | reflexivity]. Qed.

(** C2, as the code has it: [convertLinkToId] is a function of the link, and
    it is injective on the entry points, whose identifiers are pairwise
    distinct. *)
Theorem convertLinkToId_entry_points :
  (∀ a b : string, a = b → convertLinkToId a = convertLinkToId b)
  ∧ NoDup (convertLinkToId <$> ENTRY_POINTS)
  ∧ (∀ a b : string, a ∈ ENTRY_POINTS → b ∈ ENTRY_POINTS →
       convertLinkToId a = convertLinkToId b → a = b).
Proof.
  split; [by intros a b -> |]. split; [apply entry_point_ids_NoDup |].
  intros a b. apply NoDup_fmap_inj_on, entry_point_ids_NoDup.
Qed.

Lemma convertLinkToId_entry_points_witness :
  "index.php/magie.html" ∈ ENTRY_POINTS
  ∧ convertLinkToId "index.php/magie.html" = "magie"
  ∧ ("index.php/magie.html" = "index.php/magie.html" :> string).
Proof.
  split; [unfold ENTRY_POINTS; set_solver |]. split; [reflexivity |].
  apply convertLinkToId_entry_points; [unfold ENTRY_POINTS; set_solver .. | reflexivity].
Defined.

(** ** The page processor, step by step *)

Lemma parseLinks_loop_Err ms acc e :
  parseLinks_loop ms acc = Err e → e = TypeError_not_iterable.
Proof.
  revert acc. induction ms as [|m ms IH]; intros acc; simpl; [done |].
  unfold destructure at 1. destruct (Regex.exec singleMatch m); [by eauto |].
  by intros [= <-].
Qed.

Lemma normalizeMarkdown_Err markdown e :
  normalizeMarkdown markdown = Err e → e = TypeError_not_iterable.
Proof.
  unfold normalizeMarkdown, parseLinks.
  destruct (parseLinks_loop _ _) eqn:E; [done |].
  intros [= <-]. by eapply parseLinks_loop_Err.
Qed.

Lemma breadcrumbLinks_Err crumbs e :
  breadcrumbLinks crumbs = Err e → e = TypeError_null_replace.
Proof.
  induction crumbs as [|[name [href|]] crumbs IH]; simpl; [done | | congruence].
  destruct (breadcrumbLinks crumbs); [done |]. intros [= <-]. by apply IH.
Qed.

Lemma breadcrumbLinks_null crumbs :
  (∃ name, (name, None) ∈ crumbs) →
  breadcrumbLinks crumbs = Err TypeError_null_replace.
Proof.
  intros [name Hin].
  induction crumbs as [|[name' [href|]] crumbs IH]; simpl; [by apply elem_of_nil in Hin | | done].
  apply elem_of_cons in Hin as [[=]|Hin]. by rewrite IH.
Qed.

Lemma breadcrumbLinks_href crumbs :
  (∀ name href, (name, href) ∈ crumbs → href ≠ None) →
  ∃ ls, breadcrumbLinks crumbs = Ok ls.
Proof.
  induction crumbs as [|[name [href|]] crumbs IH]; simpl; intros H; [by eauto | |].
  - destruct IH as [ls ->]; [|by eauto].
    intros n h Hin. apply (H n h). by right.
  - exfalso. apply (H name None); [by left | done].
Qed.

(** [parseSite], with the plumbing of the monad evaluated. *)
Lemma parseSite_eq w link st :
  parseSite w link st =
  let opened := push st [Goto (PREFIX +:+ link)] in
  match evaluate w (PREFIX +:+ link) with
  | None => Thrown NavigationError opened
  | Some content =>
      match decodeURIComponent w (content_id content) with
      | None => Thrown URIError opened
      | Some decoded =>
          match normalizeMarkdown (markdownOf w content) with
          | Err e => Thrown e opened
          | Ok (links, normalizedMarkdown) =>
              match breadcrumbLinks (breadcrumb content) with
              | Err e => Thrown e opened
              | Ok crumbs =>
                  match prettier_format w (JS.join " > " crumbs +:+ JS.nl +:+ JS.nl
                                    +:+ normalizedMarkdown) with
                  | None => Thrown FormatError opened
                  | Some formatted =>
                      let fsId := ID_PREFIX +:+ convertLinkToId decoded in
                      let title := sanitizeTitle (content_title content) in
                      let path := path_join OUTPUT_DIRECTORY (fsId +:+ ".md") in
                      let body :=
                        frontMatter fsId title (map fst (breadcrumb content))
                        +:+ formatted in
                      if writable w path
                      then Returned ({| Entry.id := fsId; Entry.title := title |}, links)
                             (processed st link path body)
                      else Thrown WriteError
                             (push st [Goto (PREFIX +:+ link);
                                       WriteFile path body false])
                  end
              end
          end
      end
  end.
Proof.
  unfold parseSite, mbind, M_bind, emit, liftOption, liftResult, writeFileSync,
    markParsed, mret, M_ret, throw, push, processed. simpl.
  destruct (evaluate w _) as [content|]; [|done].
  destruct (decodeURIComponent w _) as [decoded|]; [|done].
  destruct (normalizeMarkdown _) as [[links nm]|e]; [|done].
  destruct (breadcrumbLinks _) as [crumbs|e]; [|done].
  destruct (prettier_format w _) as [formatted|]; [|done].
  unfold mbind, M_bind, emit. destruct (writable w _); simpl;
    by rewrite <- ?(assoc_L (++)).
Qed.

(** The links a page gives do not depend on the state. *)
Lemma parseSite_links w link st r st' :
  parseSite w link st = Returned r st' →
  r.2 = linksOf w link ∧ ∃ path content, st' = processed st link path content.
Proof.
  unfold linksOf. rewrite !parseSite_eq. simpl.
  destruct (evaluate w _) as [content|]; [|done].
  destruct (decodeURIComponent w _) as [decoded|]; [|done].
  destruct (normalizeMarkdown _) as [[links nm]|e]; [|done].
  destruct (breadcrumbLinks _) as [crumbs|e]; [|done].
  destruct (prettier_format w _) as [formatted|]; [|done].
  destruct (writable w _); [|done].
  intros [= <- <-]. eauto.
Qed.

Lemma parseSite_not_OutOfFuel w link st st' :
  parseSite w link st ≠ OutOfFuel st'.
Proof.
  rewrite parseSite_eq. simpl.
  destruct (evaluate w _) as [content|]; [|done].
  destruct (decodeURIComponent w _) as [decoded|]; [|done].
  destruct (normalizeMarkdown _) as [[links nm]|e]; [|done].
  destruct (breadcrumbLinks _) as [crumbs|e]; [|done].
  destruct (prettier_format w _) as [formatted|]; [|done].
  by destruct (writable w _).
Qed.

(** One call of [parseSite] on a link that is not marked is one action of the
    transition system. *)
Lemma parseSite_reaches w link st :
  link ∉ alreadyParsedIds st →
  match parseSite w link st with
  | Returned _ st' => step st st'
  | Thrown e st' => abort e st st'
  | OutOfFuel _ => False
  end.
Proof.
  intros Hnew. rewrite parseSite_eq. simpl.
  destruct (evaluate w _) as [content|]; [|by constructor].
  destruct (decodeURIComponent w _) as [decoded|]; [|by constructor].
  destruct (normalizeMarkdown _) as [[links nm]|e] eqn:En.
  2:{ apply normalizeMarkdown_Err in En as ->. by constructor. }
  destruct (breadcrumbLinks _) as [crumbs|e] eqn:Eb.
  2:{ apply breadcrumbLinks_Err in Eb as ->. by constructor. }
  destruct (prettier_format w _) as [formatted|]; [|by constructor].
  destruct (writable w _); by constructor.
Qed.

(** ** Every run of the scheduler is a run of the transition system *)

Lemma reaches_trans {A} st0 st1 (o : Outcome A) :
  rtc step st0 st1 → reaches st1 o → reaches st0 o.
Proof.
  intros H01. destruct o as [a st|e st|st]; simpl.
  - by etrans.
  - intros (st2 & H12 & Hab). exists st2. split; [by etrans | done].
  - by etrans.
Qed.

Lemma writeFileSync_reaches w path content st :
  reaches st (writeFileSync w path content st).
Proof.
  unfold writeFileSync. destruct (writable w path); simpl.
  - apply rtc_once, step_write.
  - exists st. split; [done | apply abort_write].
Qed.

Lemma seed_reaches w entries links entryPoints st :
  NoDup entries →
  (∀ e, e ∈ entries → e ∉ alreadyParsedIds st) →
  reaches st (seed w entries links entryPoints st).
Proof.
  revert links entryPoints st.
  induction entries as [|e entries IH]; intros links entryPoints st Hnd Hnew; simpl.
  { apply rtc_refl. }
  apply NoDup_cons in Hnd as [He Hnd].
  unfold mbind, M_bind.
  pose proof (parseSite_reaches w e st (Hnew e ltac:(by left))) as Hstep.
  destruct (parseSite w e st) as [[entryPoint siteLinks] st'|err st'|st'] eqn:Ep;
    [|by exists st|done].
  apply parseSite_links in Ep as [_ (path & content & ->)].
  simpl. eapply reaches_trans; [|apply IH; [done |]].
  - eapply rtc_l; [exact Hstep |].
    apply rtc_once, (step_log (processed st e path content) (LogEntryPoint _)). done.
  - intros x Hx. simpl. apply not_elem_of_union. split; [|apply Hnew; by right].
    apply not_elem_of_singleton. by intros ->.
Qed.

Lemma drain_reaches w fuel i links st :
  reaches st (drain w fuel i links st).
Proof.
  revert i links st. induction fuel as [|fuel IH]; intros i links st; simpl;
    [apply rtc_refl |].
  destruct (links !! i) as [l|]; [|apply rtc_refl].
  case_bool_decide as Hin; [apply IH |].
  unfold mbind, M_bind. simpl.
  assert (Link.link l ∉ alreadyParsedIds (push st [LogStep i (Link.link l)]))
    as Hnew by done.
  pose proof (parseSite_reaches w _ _ Hnew) as Hstep.
  fold (push st [LogStep i (Link.link l)]).
  destruct (parseSite w _ _) as [[entry newLinks] st'|err st'|st'];
    [| |done].
  - eapply reaches_trans; [|apply IH].
    eapply rtc_l; [apply (step_log st (LogStep i (Link.link l))); done |].
    by apply rtc_once.
  - exists (push st [LogStep i (Link.link l)]). split; [|done].
    apply rtc_once, (step_log st (LogStep i (Link.link l))). done.
Qed.

Lemma crawl_reaches w entries fuel :
  NoDup entries → reaches initial (crawl entries w fuel initial).
Proof.
  intros Hnd. unfold crawl, mbind, M_bind.
  pose proof (seed_reaches w entries [] [] initial Hnd) as Hseed.
  destruct (seed w entries [] [] initial) as [[links entryPoints] st1|e st1|st1];
    try (by apply Hseed; set_solver).
  assert (rtc step initial st1) as H1 by (apply Hseed; set_solver).
  pose proof (writeFileSync_reaches w) as Hw. unfold writeEntryPointFile.
  match goal with |- context [writeFileSync w ?p ?c st1] =>
    specialize (Hw p c st1); destruct (writeFileSync w p c st1) as [[] st2|e st2|st2]
  end; try (by eapply reaches_trans).
  simpl in Hw. assert (rtc step initial st2) as H2 by (by etrans).
  pose proof (drain_reaches w fuel 0 links st2) as Hd.
  destruct (drain w fuel 0 links st2) as [[] st3|e st3|st3];
    try (by eapply reaches_trans).
  simpl in *. etrans; [exact H2 |]. etrans; [exact Hd |].
  apply rtc_once, (step_log _ Close). done.
Qed.

Lemma ENTRY_POINTS_NoDup : NoDup ENTRY_POINTS.
Proof. apply (bool_decide_unpack _). by vm_compute. Qed.

Lemma main_reaches w fuel : reaches initial (main w fuel initial).
Proof. apply crawl_reaches, ENTRY_POINTS_NoDup. Qed.

(** ** Invariants of the runs *)

Lemma app_eq_split {A} (l1 l2 pre post : list A) (x : A) :
  l1 ++ l2 = pre ++ x :: post →
  (∃ post', l1 = pre ++ x :: post' ∧ post = post' ++ l2)
  ∨ (∃ pre', pre = l1 ++ pre' ∧ l2 = pre' ++ x :: post).
Proof.
  revert pre. induction l1 as [|a l1 IH]; intros pre; simpl.
  - intros ->. right. by exists pre.
  - destruct pre as [|b pre]; simpl.
    + intros [= -> <-]. left. by exists l1.
    + intros [= -> H]. apply IH in H as [(post' & -> & ->)|(pre' & -> & ->)].
      * left. by exists post'.
      * right. by exists pre'.
Qed.

Lemma Inv_initial : Inv initial.
Proof.
  split; simpl.
  - by intros t ?%elem_of_nil.
  - by intros [|??] ???.
  - by intros [|??] ???.
  - intros ?? ?%elem_of_nil. done.
Qed.

(** Events that neither open a page nor mark one leave the first three
    clauses alone. *)
Lemma Inv_push_fresh st evs :
  (∀ pre t post, trace st = pre ++ Goto (PREFIX +:+ t) :: post → AddParsed t ∉ pre) →
  (∀ ev, ev ∈ evs → ∀ u, ev ≠ Goto u) →
  ∀ pre t post,
    trace st ++ evs = pre ++ Goto (PREFIX +:+ t) :: post → AddParsed t ∉ pre.
Proof.
  intros Hst Hevs pre t post [(post' & H & _)|(pre' & _ & H)]%app_eq_split.
  - by eapply Hst.
  - exfalso. eapply (Hevs (Goto (PREFIX +:+ t))); [|done].
    rewrite H. apply elem_of_app. right. by left.
Qed.

Lemma Inv_push_mark_last st evs :
  (∀ pre t post, trace st = pre ++ AddParsed t :: post →
     ∃ pre' path content,
       pre = pre' ++ [Goto (PREFIX +:+ t); WriteFile path content true]) →
  (∀ ev, ev ∈ evs → ∀ t, ev ≠ AddParsed t) →
  ∀ pre t post,
    trace st ++ evs = pre ++ AddParsed t :: post →
    ∃ pre' path content,
      pre = pre' ++ [Goto (PREFIX +:+ t); WriteFile path content true].
Proof.
  intros Hst Hevs pre t post [(post' & H & _)|(pre' & _ & H)]%app_eq_split.
  - by eapply Hst.
  - exfalso. eapply (Hevs (AddParsed t)); [|done].
    rewrite H. apply elem_of_app. right. by left.
Qed.

Lemma Inv_step st st' : Inv st → step st st' → Inv st'.
Proof.
  intros [Hm Hf Hl Hw] Hstep. destruct Hstep as [st link path content Hnew|st ev Hlog|st path content].
  - split; simpl.
    + intros t [Hin|Hin]%elem_of_app; [set_solver |].
      repeat (apply elem_of_cons in Hin as [[=]|Hin]); [set_solver |].
      by apply elem_of_nil in Hin.
    + intros pre t post [(post' & H & _)|(pre' & -> & H)]%app_eq_split.
      { by eapply Hf. }
      destruct pre' as [|? [|? [|? [|??]]]]; simplify_eq/=.
      rewrite (right_id_L [] (++)). by intros ?%Hm.
    + intros pre t post [(post' & H & _)|(pre' & -> & H)]%app_eq_split.
      { by eapply Hl. }
      destruct pre' as [|? [|? [|? [|??]]]]; simplify_eq/=.
      by exists (trace st), path, content.
    + intros p c [Hin|Hin]%elem_of_app; [by eapply Hw |].
      repeat (apply elem_of_cons in Hin as [[=]|Hin]). by apply elem_of_nil in Hin.
  - split; simpl.
    + intros t [Hin|Hin]%elem_of_app; [by auto |].
      apply list_elem_of_singleton in Hin as <-. done.
    + apply Inv_push_fresh; [done |].
      intros ? ->%list_elem_of_singleton u ->. done.
    + apply Inv_push_mark_last; [done |].
      intros ? ->%list_elem_of_singleton u ->. done.
    + intros p c [Hin|Hin]%elem_of_app; [by eapply Hw |].
      apply list_elem_of_singleton in Hin as <-. done.
  - split; simpl.
    + intros t [Hin|Hin]%elem_of_app; [by auto |].
      by apply list_elem_of_singleton in Hin.
    + apply Inv_push_fresh; [done |].
      by intros ? ->%list_elem_of_singleton u.
    + apply Inv_push_mark_last; [done |].
      by intros ? ->%list_elem_of_singleton u.
    + intros p c [Hin|Hin]%elem_of_app; [by eapply Hw |].
      by apply list_elem_of_singleton in Hin.
Qed.

Lemma Inv_rtc st st' : Inv st → rtc step st st' → Inv st'.
Proof. intros HI Hrtc. induction Hrtc; eauto using Inv_step. Qed.

(** The state a run ends in: one the system reaches, or one action of
    [abort] away from it. *)
Lemma reaches_final {A} (o : Outcome A) :
  reaches initial o →
  match o with
  | Thrown e st => ∃ st1, Inv st1 ∧ abort e st1 st
  | _ => Inv (final o)
  end.
Proof.
  destruct o as [a st|e st|st]; simpl.
  - apply Inv_rtc, Inv_initial.
  - intros (st1 & Hrtc & Hab). exists st1. split; [|done].
    by eapply Inv_rtc, Hrtc; apply Inv_initial.
  - apply Inv_rtc, Inv_initial.
Qed.

Lemma abort_trace e st1 st :
  abort e st1 st →
  alreadyParsedIds st = alreadyParsedIds st1
  ∧ ((∃ link, (link ∉ alreadyParsedIds st1) ∧ e ≠ WriteError
              ∧ trace st = trace st1 ++ [Goto (PREFIX +:+ link)])
     ∨ (∃ link path content, (link ∉ alreadyParsedIds st1) ∧ e = WriteError
              ∧ trace st = trace st1 ++ [Goto (PREFIX +:+ link);
                                         WriteFile path content false])
     ∨ (∃ path content, e = WriteError
              ∧ trace st = trace st1 ++ [WriteFile path content false])).
Proof. destruct 1; (split; [done |]); naive_solver. Qed.

Lemma run_fresh {A} (o : Outcome A) pre t post :
  reaches initial o →
  trace (final o) = pre ++ Goto (PREFIX +:+ t) :: post → AddParsed t ∉ pre.
Proof.
  intros Hr%reaches_final.
  destruct o as [a st|e st|st]; simpl in *; [by eapply inv_fresh | | by eapply inv_fresh].
  destruct Hr as (st1 & [Hm Hf Hl Hw] & [_ Hab]%abort_trace).
  assert (∀ link evs, link ∉ alreadyParsedIds st1 →
            (∀ ev, ev ∈ evs → ∀ u, ev ≠ Goto u) →
            trace st1 ++ Goto (PREFIX +:+ link) :: evs
            = pre ++ Goto (PREFIX +:+ t) :: post → AddParsed t ∉ pre) as Hpage.
  { intros link evs Hnew Hevs [(post' & H & _)|(pre' & -> & H)]%app_eq_split.
    { by eapply Hf. }
    destruct pre' as [|ev pre']; simplify_eq/=.
    - rewrite (right_id_L [] (++)). by intros ?%Hm.
    - exfalso. eapply (Hevs (Goto (PREFIX +:+ t))); [|done].
      apply elem_of_app. right. by left. }
  destruct Hab as [(link & Hnew & _ & ->)|[(link & p & c & Hnew & _ & ->)|(p & c & _ & ->)]].
  - eapply Hpage; [done |]. by intros ? ?%elem_of_nil.
  - eapply Hpage; [done |]. by intros ? ->%list_elem_of_singleton u.
  - apply Inv_push_fresh; [done |]. by intros ? ->%list_elem_of_singleton u.
Qed.


Lemma run_write_failed {A} (o : Outcome A) pre path content post :
  reaches initial o →
  trace (final o) = pre ++ WriteFile path content false :: post →
  post = [] ∧ ∃ st, o = Thrown WriteError st.
Proof.
  intros Hr%reaches_final Htr.
  assert (∀ st, Inv st → trace st = pre ++ WriteFile path content false :: post
            → False) as Hno.
  { intros st [_ _ _ Hw] H. apply (Hw path content). rewrite H.
    apply elem_of_app. right. by left. }
  destruct o as [a st|e st|st]; simpl in *; [by destruct (Hno st) | | by destruct (Hno st)].
  destruct Hr as (st1 & HI & [_ Hab]%abort_trace).
  assert (∀ post', trace st1 = pre ++ WriteFile path content false :: post' → False)
    as Hno1 by (intros post' H; destruct HI as [_ _ _ Hw]; apply (Hw path content);
                rewrite H; apply elem_of_app; right; by left).
  destruct Hab as [(link & _ & _ & Heq)|[(link & p & c & _ & -> & Heq)|(p & c & -> & Heq)]];
    rewrite Heq in Htr;
    apply app_eq_split in Htr as [(post' & H & _)|(pre' & _ & H)];
    try (by destruct (Hno1 post'));
    destruct pre' as [|? [|? [|??]]]; simplify_eq/=; eauto.
Qed.

(** C3: in a run of [main], a page is never opened after it was marked: what
    precedes [page.goto] for a target holds no [alreadyParsedIds.add] of that
    target, whatever the site and however long the run. *)
Theorem marked_target_not_processed_again
    (w : World) (fuel : nat) (pre post : list Event) (t : string) :
  trace (final (main w fuel initial)) = pre ++ Goto (PREFIX +:+ t) :: post →
  AddParsed t ∉ pre.
Proof. apply run_fresh, main_reaches. Qed.

Lemma marked_target_not_processed_again_witness :
  let tr := trace (final (main (world siteHub []) 100 initial)) in
  tr !! 54 = Some (Goto (PREFIX +:+ "index.php/b.html"))
  ∧ length (filter (λ l, Link.link l = "index.php/b.html")
              (concat (linksOf (world siteHub []) <$> ENTRY_POINTS))) = 13
  ∧ AddParsed "index.php/b.html" ∉ take 54 tr.
Proof.
  split; [by vm_compute |]. split; [by vm_compute |].
  apply (marked_target_not_processed_again (world siteHub []) 100 _
           (drop 55 (trace (final (main (world siteHub []) 100 initial))))).
  by vm_compute.
Defined.




(** C9 as stated fails: the document of <<index.php/b.html>> cannot be
    written, and the page <<index.php/c.html>>, next in the frontier and
    processed when the write succeeds, is never opened. *)
Lemma write_failure_stops_crawl :
  let o := main (world siteHub ["result/dsa-rule-b.md"]) 100 initial in
  match last (trace (final o)) with
  | Some (WriteFile path _ ok) => path = "result/dsa-rule-b.md" ∧ ok = false
  | _ => False
  end
  ∧ (Goto (PREFIX +:+ "index.php/c.html") ∉ trace (final o))
  ∧ exitCode o = 1
  ∧ Goto (PREFIX +:+ "index.php/c.html")
    ∈ trace (final (main (world siteHub []) 100 initial)).
Proof.
  split; [by vm_compute |]. split; [apply (bool_decide_unpack _); by vm_compute |].
  split; [by vm_compute |]. apply (bool_decide_unpack _). by vm_compute.
Qed.

(** C9, as the code has it: a write that fails is the last thing a run
    does; the exception leaves [main] and the process ends with exit code
    1. *)
Theorem write_failure_ends_run
    (w : World) (fuel : nat) (pre post : list Event) (path content : string) :
  trace (final (main w fuel initial)) = pre ++ WriteFile path content false :: post →
  post = []
  ∧ (∃ st, main w fuel initial = Thrown WriteError st)
  ∧ exitCode (main w fuel initial) = 1.
Proof.
  intros Htr.
  destruct (run_write_failed _ _ _ _ _ (main_reaches w fuel) Htr) as [-> [st Hst]].
  rewrite Hst. eauto.
Qed.

Lemma write_failure_ends_run_witness :
  let o := main (world siteHub ["result/dsa-rule-b.md"]) 100 initial in
  drop 56 (trace (final o)) = [] ∧ (∃ st, o = Thrown WriteError st) ∧ exitCode o = 1.
Proof.
  eapply (write_failure_ends_run (world siteHub ["result/dsa-rule-b.md"]) 100
            (take 55 (trace (final (main (world siteHub ["result/dsa-rule-b.md"])
                                      100 initial))))).
  by vm_compute.
Defined.

(** ** Breadcrumb anchors without [href] *)

(** C10: a page with a breadcrumb anchor that has no [href] is never turned
    into a document record: [parseSite] throws; when the steps before the
    breadcrumb trail succeed, what is thrown is the [TypeError] of
    [normalizeLink] called on [null], before anything is written or marked.
    A page whose breadcrumb anchors all have an [href] never throws that
    error. *)
Theorem breadcrumb_without_href_throws
    (w : World) (link : string) (st : State) (content : Content) :
  evaluate w (PREFIX +:+ link) = Some content →
  ((∃ name, (name, None) ∈ breadcrumb content) →
     (∀ r st', parseSite w link st ≠ Returned r st')
     ∧ (∀ decoded r,
          decodeURIComponent w (content_id content) = Some decoded →
          normalizeMarkdown (markdownOf w content) = Ok r →
          parseSite w link st
          = Thrown TypeError_null_replace (push st [Goto (PREFIX +:+ link)])))
  ∧ ((∀ name href, (name, href) ∈ breadcrumb content → href ≠ None) →
     ∀ st', parseSite w link st ≠ Thrown TypeError_null_replace st').
Proof.
  intros Hev. rewrite parseSite_eq, Hev. simpl. split.
  - intros Hnull%breadcrumbLinks_null. rewrite Hnull. split.
    + intros r st'. destruct (decodeURIComponent w _); [|done].
      by destruct (normalizeMarkdown _) as [[??]|].
    + intros decoded [links nm] -> ->. done.
  - intros [crumbs Hok]%breadcrumbLinks_href st'. rewrite Hok.
    destruct (decodeURIComponent w _); [|done].
    destruct (normalizeMarkdown _) as [[??]|e] eqn:En.
    + destruct (prettier_format w _); [|done]. by destruct (writable w _).
    + apply normalizeMarkdown_Err in En as ->. done.
Qed.

Lemma breadcrumb_without_href_throws_witness :
  evaluate (world siteNoHref []) (PREFIX +:+ "index.php/regeln.html")
  = Some (page "/index.php/regeln.html" "Regeln - DSA Regel Wiki" "Text"
            [("Start", Some "index.php/regeln.html"); ("Hier", None)])
  ∧ parseSite (world siteNoHref []) "index.php/regeln.html" initial
    = Thrown TypeError_null_replace
        (push initial [Goto (PREFIX +:+ "index.php/regeln.html")]).
Proof.
  split; [reflexivity |].
  eapply (breadcrumb_without_href_throws (world siteNoHref [])
            "index.php/regeln.html" initial); [reflexivity | | reflexivity |].
  - exists "Hier". set_solver.
  - by vm_compute.
Defined.

(** ** Termination of the draining loop *)

Section Termination.

Variable w : World.

(** A set of targets that is closed under the links of its pages. *)
Variable U : gset string.
Hypothesis U_closed :
  ∀ t l, t ∈ U → l ∈ linksOf w t → Link.link l ∈ U.

Lemma pending_remove X t :
  t ∈ X → pending w X = length (linksOf w t) + pending w (X ∖ {[ t ]}).
Proof.
  intros Hin. unfold pending.
  rewrite (union_difference_singleton_L t X Hin) at 1.
  rewrite elements_union_singleton; [done |].
  apply not_elem_of_difference. right. by apply elem_of_singleton.
Qed.

Lemma drain_terminates fuel i links st :
  (∀ j l, i ≤ j → links !! j = Some l → Link.link l ∈ U) →
  todo w U i links st < fuel →
  isOutOfFuel (drain w fuel i links st) = false.
Proof.
  revert i links st. induction fuel as [|fuel IH]; intros i links st Hin Hfuel;
    [lia |]. simpl.
  destruct (links !! i) as [l|] eqn:Hl; [|done].
  pose proof (lookup_lt_Some _ _ _ Hl) as Hlt.
  case_bool_decide as Hvis.
  { apply IH; [intros j l' ?; apply Hin; lia |]. unfold todo in *. lia. }
  unfold mbind, M_bind. simpl.
  destruct (parseSite w (Link.link l) _) as [[entry newLinks] st'|e st'|st'] eqn:Ep;
    [|done|].
  2:{ by apply parseSite_not_OutOfFuel in Ep. }
  apply parseSite_links in Ep as [Hlinks (path & content & ->)].
  simpl in Hlinks. subst newLinks.
  assert (Link.link l ∈ U) as HU by (by eapply (Hin i)).
  apply IH.
  - intros j l' Hj [Hj'|[_ Hj']]%lookup_app_Some.
    + eapply (Hin j); [lia | done].
    + eapply U_closed; [exact HU |]. by eapply list_elem_of_lookup_2.
  - unfold todo in *. simpl. rewrite length_app.
    rewrite (pending_remove (U ∖ alreadyParsedIds st) (Link.link l)) in Hfuel
      by (by apply elem_of_difference).
    rewrite difference_difference_l_L in Hfuel.
    rewrite (comm_L (∪) {[Link.link l]}). lia.
Qed.

Lemma seed_no_fuel entries links entryPoints st :
  isOutOfFuel (seed w entries links entryPoints st) = false.
Proof.
  revert links entryPoints st.
  induction entries as [|e entries IH]; intros links entryPoints st; simpl; [done |].
  unfold mbind, M_bind.
  destruct (parseSite w e st) as [[entryPoint siteLinks] st'|err st'|st'] eqn:Ep;
    [apply IH | done |].
  by apply parseSite_not_OutOfFuel in Ep.
Qed.

Lemma seed_links entries links entryPoints st links' entryPoints' st' :
  (∀ e l, e ∈ entries → l ∈ linksOf w e → Link.link l ∈ U) →
  (∀ l, l ∈ links → Link.link l ∈ U) →
  seed w entries links entryPoints st = Returned (links', entryPoints') st' →
  ∀ l, l ∈ links' → Link.link l ∈ U.
Proof.
  revert links entryPoints st.
  induction entries as [|e entries IH]; intros links entryPoints st He Hl; simpl.
  { by intros [= <- <- <-]. }
  unfold mbind, M_bind.
  destruct (parseSite w e st) as [[entryPoint siteLinks] st1|err st1|st1] eqn:Ep;
    [|done..].
  apply parseSite_links in Ep as [Hlinks _]. simpl in Hlinks. subst siteLinks.
  apply IH.
  - intros e' l ?. apply He. by right.
  - intros l [?|?]%elem_of_app; [by apply Hl |]. apply (He e); [by left | done].
Qed.

Lemma crawl_terminates_closed entries :
  (∀ e l, e ∈ entries → l ∈ linksOf w e → Link.link l ∈ U) →
  ∃ fuel, ∀ fuel', fuel ≤ fuel' →
    isOutOfFuel (crawl entries w fuel' initial) = false.
Proof.
  intros He. unfold crawl, mbind, M_bind.
  pose proof (seed_no_fuel entries [] [] initial) as Hno.
  destruct (seed w entries [] [] initial) as [[links entryPoints] st1|e st1|st1] eqn:Es;
    [|by exists 0|done].
  pose proof (seed_links _ _ _ _ _ _ _ He ltac:(by intros ? ?%elem_of_nil) Es) as Hl.
  unfold writeEntryPointFile, writeFileSync.
  destruct (writable w _); simpl; [|by exists 0].
  match goal with |- context [drain w _ 0 links ?st] => set (st2 := st) end.
  exists (S (todo w U 0 links st2)). intros fuel' Hfuel.
  pose proof (drain_terminates fuel' 0 links st2) as Hd.
  destruct (drain w fuel' 0 links st2); try done.
  apply Hd; [|lia]. intros j l _ Hj. apply Hl. by eapply list_elem_of_lookup_2.
Qed.

End Termination.

(** C4: on a site where the links of the entry points and of the pages they
    lead to stay within a finite set of targets, the crawl ends: with enough
    fuel the run is never cut short.  With two entry points whose pages link
    to each other, the run ends after opening these two pages, each once. *)
Theorem crawl_terminates :
  (∀ (w : World) (entries : list string) (U : gset string),
     (∀ e l, e ∈ entries → l ∈ linksOf w e → Link.link l ∈ U) →
     (∀ t l, t ∈ U → l ∈ linksOf w t → Link.link l ∈ U) →
     ∃ fuel, ∀ fuel', fuel ≤ fuel' →
       isOutOfFuel (crawl entries w fuel' initial) = false)
  ∧ (∀ fuel, 3 ≤ fuel →
       ∃ st, crawl ["index.php/a.html"; "index.php/b.html"]
               (world siteAB []) fuel initial = Returned () st
             ∧ gotos (trace st) = [PREFIX +:+ "index.php/a.html";
                                   PREFIX +:+ "index.php/b.html"]).
Proof.
  split.
  - intros w entries U He HU. by apply (crawl_terminates_closed w U).
  - intros [|[|[|fuel]]] Hfuel; [lia.. |]. eexists. split; by vm_compute.
Qed.

Lemma crawl_terminates_witness :
  ∃ fuel, ∀ fuel', fuel ≤ fuel' →
    isOutOfFuel (crawl ["index.php/a.html"; "index.php/b.html"]
                   (world siteAB []) fuel' initial) = false.
Proof.
  apply (proj1 crawl_terminates (world siteAB [])
           ["index.php/a.html"; "index.php/b.html"]
           {[ "index.php/a.html"; "index.php/b.html" ]}).
  - intros e l He. repeat (apply elem_of_cons in He as [->|He]);
      [vm_compute; intros ->%list_elem_of_singleton; set_solver .. |].
    by apply elem_of_nil in He.
  - intros t l [->%elem_of_singleton| ->%elem_of_singleton]%elem_of_union;
      vm_compute; intros ->%list_elem_of_singleton; set_solver.
Defined.

(** ** The regular expressions on a link in plain text *)

Section RegexFacts.

Context {A : Type}.
Implicit Types (p q : ascii → bool) (k : string → option A).

Lemma star_app_some p a b k r :
  JS.all p a = true → Regex.star p b k = Some r → Regex.star p (a +:+ b) k = Some r.
Proof.
  intros Ha Hb. induction a as [|c a IH]; [done |].
  simpl in Ha. apply andb_true_iff in Ha as [Hc Ha].
  rewrite str_app_cons. simpl. by rewrite Hc, IH.
Qed.

Lemma star_stop p c s k :
  p c = false → Regex.star p (String c s) k = k (String c s).
Proof. intros Hc. simpl. by rewrite Hc. Qed.

(** A continuation that needs a code unit of the class [q] first fails on
    every suffix of a string without such code units. *)
Lemma star_none p q s k :
  k "" = None →
  (∀ c s', q c = false → k (String c s') = None) →
  JS.all (λ c, negb (q c)) s = true →
  Regex.star p s k = None.
Proof.
  intros Hnil Hk. induction s as [|c s IH]; simpl; [done |].
  intros [Hc Hs]%andb_true_iff. apply negb_true_iff in Hc.
  rewrite (IH Hs), (Hk c s Hc). by destruct (p c).
Qed.

End RegexFacts.

Lemma consumed_app (a b : string) : Regex.consumed (a +:+ b) b = a.
Proof.
  unfold Regex.consumed. rewrite str_length_app.
  replace (String.length a + String.length b - String.length b)
    with (String.length a) by lia.
  apply str_take_app.
Qed.

Lemma plain_spec c :
  plain c = true →
  c ≠ "["%char ∧ c ≠ "]"%char ∧ c ≠ "("%char ∧ c ≠ ")"%char
  ∧ c ≠ "*"%char ∧ c ≠ "\"%char ∧ c ≠ "$"%char.
Proof.
  unfold plain, noneOf. simpl. intros H%negb_true_iff.
  repeat (apply orb_false_iff in H as [?%Ascii.eqb_neq H]). done.
Qed.

(** A character class that excludes only code units that are not plain
    contains the plain ones. *)
Lemma plain_noneOf cs c :
  JS.all (λ d, negb (plain d)) cs = true → plain c = true → noneOf cs c = true.
Proof.
  intros Hcs Hc. unfold noneOf. apply negb_true_iff.
  induction cs as [|d cs IH]; simpl in *; [done |].
  apply andb_true_iff in Hcs as [Hd Hcs]. rewrite (IH Hcs), orb_false_r.
  apply Ascii.eqb_neq. intros ->. by rewrite Hc in Hd.
Qed.

Lemma plainText_noneOf cs s :
  JS.all (λ d, negb (plain d)) cs = true → plainText s = true →
  JS.all (noneOf cs) s = true.
Proof. intros Hcs. apply all_impl. intros c. by apply plain_noneOf. Qed.

Lemma plainText_without (c : ascii) s :
  plain c = false → plainText s = true →
  JS.all (λ d, negb (Ascii.eqb c d)) s = true.
Proof.
  intros Hc. apply all_impl. intros d Hd. apply negb_true_iff, Ascii.eqb_neq.
  intros ->. congruence.
Qed.

Lemma all_cons p c s : JS.all p (String c s) = p c && JS.all p s.
Proof. reflexivity. Qed.

Lemma star_cons_true {A} p c s (k : string → option A) :
  p c = true →
  Regex.star p (String c s) k
  = match Regex.star p s k with Some r => Some r | None => k (String c s) end.
Proof. intros Hc. simpl. by rewrite Hc. Qed.

Lemma mdLink_app t u post :
  mdLink t u +:+ post = String "[" (t +:+ String "]" (String "(" (u +:+ String ")" post))).
Proof. unfold mdLink. by rewrite !str_app_assoc. Qed.

Lemma plainTarget_plainText u : plainTarget u = true → plainText u = true.
Proof. apply all_impl. by intros c [??]%andb_true_iff. Qed.

Lemma plainTarget_dot u : plainTarget u = true → JS.all dot u = true.
Proof. apply all_impl. by intros c [??]%andb_true_iff. Qed.

(** The text between the opening bracket and a closing bracket has no
    closing bracket in it when it is plain, and so has what follows. *)
Lemma no_bracket_after u post :
  plainText u = true → plainText post = true →
  JS.all (λ c, negb (Ascii.eqb "]" c)) (String "(" (u +:+ String ")" post)) = true.
Proof.
  intros Hu Hpost. rewrite all_cons, str_all_app, all_cons.
  rewrite !(plainText_without "]") by done. done.
Qed.


Lemma matchHere_singleMatch t u :
  t ≠ "" → plainText t = true → plainTarget u = true →
  Regex.matchHere singleMatch (mdLink t u)
  = Some {| Regex.before := ""; Regex.matched := mdLink t u;
            Regex.captures := [t; u]; Regex.after := "" |}.
Proof.
  intros Ht Hpt Hu. pose proof (plainTarget_plainText u Hu) as Hpu.
  pose proof (plainTarget_dot u Hu) as Hdot.
  rewrite <- (str_app_nil_r (mdLink t u)) at 1.
  rewrite mdLink_app. unfold Regex.matchHere, singleMatch.
  destruct t as [|d t]; [done |].
  pose proof Hpt as Hpt'. unfold plainText in Hpt'. rewrite all_cons in Hpt'.
  apply andb_true_iff in Hpt' as [Hd Hpt'].
  cbn [Regex.run]. rewrite Ascii.eqb_refl, str_app_cons.
  rewrite (plain_noneOf "[" d) by done.
  erewrite star_app_some; [reflexivity | by apply plainText_noneOf |].
  rewrite (star_cons_true _ "]") by done.
  rewrite (star_none _ (Ascii.eqb "]")); [| done | by intros c s' -> |
    by apply no_bracket_after].
  rewrite !Ascii.eqb_refl.
  erewrite star_app_some; [reflexivity | done |].
  rewrite (star_cons_true _ ")") by done. cbn [Regex.star].
  rewrite Ascii.eqb_refl.
  do 2 f_equal.
  - transitivity (Regex.consumed (mdLink (String d t) u +:+ "") "");
      [by rewrite mdLink_app | by rewrite consumed_app].
  - cbn [app]. f_equal; [|f_equal].
    + apply (consumed_app (String d t)).
    + apply consumed_app.
Qed.

Lemma exec_unfold r s :
  Regex.exec r s =
  match Regex.matchHere r s with
  | Some m => Some m
  | None =>
      match s with
      | EmptyString => None
      | String c s' =>
          match Regex.exec r s' with
          | Some m => Some {| Regex.before := String c (Regex.before m);
                              Regex.matched := Regex.matched m;
                              Regex.captures := Regex.captures m;
                              Regex.after := Regex.after m |}
          | None => None
          end
      end
  end.
Proof. by destruct s. Qed.

Lemma matchHere_Chr_other c r d s :
  Ascii.eqb c d = false → Regex.matchHere (Chr c @@ r) (String d s) = None.
Proof. intros H. unfold Regex.matchHere. simpl. by rewrite H. Qed.

(** A regular expression that starts with a literal finds nothing in a
    string without that literal. *)
Lemma exec_without c r s :
  JS.all (λ d, negb (Ascii.eqb c d)) s = true → Regex.exec (Chr c @@ r) s = None.
Proof.
  induction s as [|d s IH]; [done |].
  rewrite all_cons. intros [Hd Hs]%andb_true_iff. apply negb_true_iff in Hd.
  rewrite exec_unfold, matchHere_Chr_other by done.
  by rewrite IH.
Qed.

(** ... and skips a prefix without that literal. *)
Lemma exec_skip c r pre s m :
  JS.all (λ d, negb (Ascii.eqb c d)) pre = true →
  Regex.matchHere (Chr c @@ r) s = Some m →
  Regex.exec (Chr c @@ r) (pre +:+ s)
  = Some {| Regex.before := pre +:+ Regex.before m; Regex.matched := Regex.matched m;
            Regex.captures := Regex.captures m; Regex.after := Regex.after m |}.
Proof.
  intros Hpre Hm. induction pre as [|d pre IH].
  - rewrite str_app_nil_l, exec_unfold, Hm. by destruct m.
  - rewrite all_cons in Hpre. apply andb_true_iff in Hpre as [Hd Hpre].
    apply negb_true_iff in Hd.
    rewrite str_app_cons, exec_unfold, matchHere_Chr_other by done.
    by rewrite IH.
Qed.

Lemma matches_without c r s :
  JS.all (λ d, negb (Ascii.eqb c d)) s = true → Regex.matches (Chr c @@ r) s = ([], s).
Proof. intros H. unfold Regex.matches. simpl. by rewrite exec_without. Qed.

Lemma replace_g_without c r f s :
  JS.all (λ d, negb (Ascii.eqb c d)) s = true → Regex.replace_g (Chr c @@ r) f s = s.
Proof. intros H. unfold Regex.replace_g. by rewrite (matches_without c r s H). Qed.





(** A template without <<$>> stands for itself. *)
Lemma getSubstitution_plain matched before after template :
  JS.all (λ c, negb (Ascii.eqb c "$")) template = true →
  JS.getSubstitution matched before after template = template.
Proof.
  induction template as [|c tpl IH]; [done |].
  rewrite all_cons. intros [Hc Htpl]%andb_true_iff. apply negb_true_iff in Hc.
  simpl. rewrite Hc. by rewrite IH.
Qed.


(** What [replace], [split] and [pop] return is made of code units of their
    argument. *)
Lemma all_replace_empty p s pat :
  JS.all p s = true → JS.all p (JS.replace s pat "") = true.
Proof.
  unfold JS.replace. destruct (JS.cut pat s) as [[b a]|] eqn:E; [|done].
  apply cut_Some in E as ->. simpl. rewrite !str_all_app.
  intros [? [_ ?]%andb_true_iff]%andb_true_iff. by apply andb_true_iff.
Qed.

Lemma all_split p c s :
  JS.all p s = true → Forall (λ seg, JS.all p seg = true) (JS.split c s).
Proof.
  induction s as [|d s IH]; simpl; [by repeat constructor |].
  intros [Hd Hs]%andb_true_iff. specialize (IH Hs).
  destruct (Ascii.eqb d c); [by constructor |].
  destruct (JS.split c s) as [|seg segs]; [by repeat constructor; simpl; rewrite Hd |].
  apply Forall_cons in IH as [Hseg Hsegs]. constructor; [|done].
  simpl. by rewrite Hd.
Qed.

Lemma all_pop p segs :
  Forall (λ seg, JS.all p seg = true) segs → JS.all p (JS.pop segs) = true.
Proof.
  unfold JS.pop. induction 1 as [|seg segs Hseg Hsegs IH]; [done |].
  destruct segs; [done |]. exact IH.
Qed.

Lemma all_normalizeLink p u : JS.all p u = true → JS.all p (normalizeLink u) = true.
Proof. intros H. unfold normalizeLink. by do 3 apply all_replace_empty. Qed.

Lemma all_convertLinkToId p u :
  JS.all p u = true → JS.all p (convertLinkToId u) = true.
Proof.
  intros H. unfold convertLinkToId.
  by apply all_replace_empty, all_pop, all_split, all_normalizeLink.
Qed.




(** ** Link extraction on examples *)

Example parseLinks_two_links :
  parseLinks "[Foo](bar.html) and [Baz](http://example.org/qux.html)"
  = Ok [{| Link.text := "Foo"; Link.wholeLink := "bar.html"; Link.link := "bar.html" |};
        {| Link.text := "Baz"; Link.wholeLink := "http://example.org/qux.html";
           Link.link := "http://example.org/qux.html" |}].
Proof. reflexivity. Qed.

Example parseLinks_unclosed : parseLinks "[Foo](bar.html" = Ok [].
Proof. reflexivity. Qed.

(** A target with a line break is matched by [regexMdLinks] and not by
    [singleMatch], whose <<.>> stops at the line break: [exec] returns
    [null]. *)
Example parseLinks_line_break :
  parseLinks ("[Foo](bar" +:+ JS.nl +:+ ".html)") = Err TypeError_not_iterable.
Proof. reflexivity. Qed.

Example repairMarkdown_emphasis :
  repairMarkdown ("**" +:+ JS.nl +:+ "Lorem ipsum:** \# eins")
  = "**Lorem ipsum:** - eins".
Proof. reflexivity. Qed.

(** ** Link rewriting *)



(** Two more pages on which a link keeps its address: the link's text is
    changed by the repairs after the links were extracted; and a link whose
    address is the identifier given to an earlier link. *)
Example link_rewriting_after_repair :
  normalizeMarkdown
    ("[**" +:+ JS.nl
     +:+ "Lorem ipsum:**](https://ulisses-regelwiki.de/index.php/a.html)")
  = Ok ([{| Link.text := "**" +:+ JS.nl +:+ "Lorem ipsum:**";
            Link.wholeLink := "https://ulisses-regelwiki.de/index.php/a.html";
            Link.link := "index.php/a.html" |}],
        "[**Lorem ipsum:**](https://ulisses-regelwiki.de/index.php/a.html)").
Proof. by vm_compute. Qed.

Example link_rewriting_twice :
  normalizeMarkdown "[a](x.html) [a](dsa-rule-x)"
  = Ok ([{| Link.text := "a"; Link.wholeLink := "x.html"; Link.link := "x.html" |};
         {| Link.text := "a"; Link.wholeLink := "dsa-rule-x";
            Link.link := "dsa-rule-x" |}],
        "[a](dsa-rule-dsa-rule-x) [a](dsa-rule-x)").
Proof. by vm_compute. Qed.

(** A link repeated with the same text and target is rewritten at each
    place, one place per turn. *)
Example link_rewriting_repeated :
  normalizeMarkdown "[a](x.html) und [a](x.html)"
  = Ok ([{| Link.text := "a"; Link.wholeLink := "x.html"; Link.link := "x.html" |};
         {| Link.text := "a"; Link.wholeLink := "x.html"; Link.link := "x.html" |}],
        "[a](dsa-rule-x) und [a](dsa-rule-x)").
Proof. by vm_compute. Qed.



(** ** Links to other hosts *)






(** * Further properties of the crawler *)

(** ** What one call of [parseSite] leaves behind *)

Lemma parseSite_effect (w : World) (link : string) (st : State) :
  match parseSite w link st with
  | Returned (entry, links) st' =>
      links = linksOf w link
      ∧ alreadyParsedIds st' = {[ link ]} ∪ alreadyParsedIds st
      ∧ ∃ content,
          trace st' = trace st ++
            [Goto (PREFIX +:+ link);
             WriteFile (path_join OUTPUT_DIRECTORY (Entry.id entry +:+ ".md"))
               content true;
             AddParsed link]
  | Thrown e st' =>
      alreadyParsedIds st' = alreadyParsedIds st
      ∧ ∃ evs, trace st' = trace st ++ Goto (PREFIX +:+ link) :: evs
               ∧ ∀ ev, ev ∈ evs → ∃ path content, ev = WriteFile path content false
  | OutOfFuel _ => False
  end.
Proof.
  destruct (parseSite w link st) as [[entry links] st'|e st'|st'] eqn:Ep.
  - pose proof (parseSite_links _ _ _ _ _ Ep) as [Hl _]. simpl in Hl.
    split; [done |]. rewrite parseSite_eq in Ep. simpl in Ep.
    destruct (evaluate w _) as [content|]; [|done].
    destruct (decodeURIComponent w _) as [decoded|]; [|done].
    destruct (normalizeMarkdown _) as [[links' nm]|e]; [|done].
    destruct (breadcrumbLinks _) as [crumbs|e]; [|done].
    destruct (prettier_format w _) as [formatted|]; [|done].
    destruct (writable w _); [|done].
    injection Ep as <- <- <-. split; [done |]. by eexists.
  - rewrite parseSite_eq in Ep. simpl in Ep.
    destruct (evaluate w _) as [content|];
      [|injection Ep as <- <-; split; [done |]; exists []; split; [done |];
        by intros ? ?%elem_of_nil].
    destruct (decodeURIComponent w _) as [decoded|];
      [|injection Ep as <- <-; split; [done |]; exists []; split; [done |];
        by intros ? ?%elem_of_nil].
    destruct (normalizeMarkdown _) as [[links' nm]|e'];
      [|injection Ep as <- <-; split; [done |]; exists []; split; [done |];
        by intros ? ?%elem_of_nil].
    destruct (breadcrumbLinks _) as [crumbs|e'];
      [|injection Ep as <- <-; split; [done |]; exists []; split; [done |];
        by intros ? ?%elem_of_nil].
    destruct (prettier_format w _) as [formatted|];
      [|injection Ep as <- <-; split; [done |]; exists []; split; [done |];
        by intros ? ?%elem_of_nil].
    destruct (writable w _); [done |].
    injection Ep as <- <-. split; [done |]. eexists [_]. split; [done |].
    intros ev ->%list_elem_of_singleton. eauto.
  - by apply parseSite_not_OutOfFuel in Ep.
Qed.

(** X1. A page that is processed leaves one document, in the file named after
    the identifier that is returned, and one mark, for the link it was called
    with; a page that fails leaves no mark and no document. *)
Theorem parseSite_outcome (w : World) (link : string) (st : State) :
  match parseSite w link st with
  | Returned (entry, links) st' =>
      links = linksOf w link
      ∧ alreadyParsedIds st' = {[ link ]} ∪ alreadyParsedIds st
      ∧ ∃ content,
          trace st' = trace st ++
            [Goto (PREFIX +:+ link);
             WriteFile (path_join OUTPUT_DIRECTORY (Entry.id entry +:+ ".md"))
               content true;
             AddParsed link]
  | Thrown e st' =>
      alreadyParsedIds st' = alreadyParsedIds st
      ∧ ∃ evs, trace st' = trace st ++ Goto (PREFIX +:+ link) :: evs
               ∧ ∀ ev, ev ∈ evs → ∃ path content, ev = WriteFile path content false
  | OutOfFuel _ => False
  end.
Proof. exact (parseSite_effect w link st). Qed.

(** ** No page is opened twice *)

Lemma gotos_app tr1 tr2 : gotos (tr1 ++ tr2) = gotos tr1 ++ gotos tr2.
Proof. apply omap_app. Qed.

Lemma opened_step st st' :
  (NoDup (gotos (trace st))
   ∧ ∀ u, u ∈ gotos (trace st) → ∃ t, u = PREFIX +:+ t ∧ t ∈ alreadyParsedIds st) →
  step st st' →
  NoDup (gotos (trace st'))
  ∧ ∀ u, u ∈ gotos (trace st') → ∃ t, u = PREFIX +:+ t ∧ t ∈ alreadyParsedIds st'.
Proof.
  intros [Hnd Hin] Hstep.
  destruct Hstep as [st link path content Hnew|st ev Hlog|st path content]; simpl;
    rewrite gotos_app.
  - simpl. split.
    + apply NoDup_app. split; [done |]. split; [|apply NoDup_singleton].
      intros u (t & -> & Ht)%Hin Hu. apply list_elem_of_singleton in Hu.
      apply (inj (String.app PREFIX)) in Hu. by subst.
    + intros u [(t & -> & Ht)%Hin| ->%list_elem_of_singleton]%elem_of_app.
      * exists t. set_solver.
      * exists link. set_solver.
  - destruct ev; try done; simpl; by rewrite (right_id_L [] (++)).
  - simpl. by rewrite (right_id_L [] (++)).
Qed.

Lemma opened_rtc st st' :
  (NoDup (gotos (trace st))
   ∧ ∀ u, u ∈ gotos (trace st) → ∃ t, u = PREFIX +:+ t ∧ t ∈ alreadyParsedIds st) →
  rtc step st st' →
  NoDup (gotos (trace st'))
  ∧ ∀ u, u ∈ gotos (trace st') → ∃ t, u = PREFIX +:+ t ∧ t ∈ alreadyParsedIds st'.
Proof. intros H Hrtc. induction Hrtc; eauto using opened_step. Qed.

Lemma run_opened_once {A} (o : Outcome A) :
  reaches initial o → NoDup (gotos (trace (final o))).
Proof.
  assert (NoDup (gotos (trace initial))
          ∧ ∀ u, u ∈ gotos (trace initial) →
              ∃ t, u = PREFIX +:+ t ∧ t ∈ alreadyParsedIds initial) as H0.
  { split; [constructor | by intros ? ?%elem_of_nil]. }
  destruct o as [a st|e st|st]; simpl;
    [intros Hr; by destruct (opened_rtc _ _ H0 Hr) | |
     intros Hr; by destruct (opened_rtc _ _ H0 Hr)].
  intros (st1 & Hr & Hab). destruct (opened_rtc _ _ H0 Hr) as [Hnd Hin].
  assert (∀ link evs, link ∉ alreadyParsedIds st1 → gotos evs = [] →
            NoDup (gotos (trace st1 ++ Goto (PREFIX +:+ link) :: evs))) as Hpage.
  { intros link evs Hnew Hevs. rewrite gotos_app. simpl. rewrite Hevs.
    apply NoDup_app. split; [done |]. split; [|apply NoDup_singleton].
    intros u (t & -> & Ht)%Hin Hu. apply list_elem_of_singleton in Hu.
      apply (inj (String.app PREFIX)) in Hu. by subst. }
  destruct Hab; simpl; [by apply Hpage | by apply Hpage |].
  rewrite gotos_app. simpl. by rewrite (right_id_L [] (++)).
Qed.

(** X2. In a run of [main], whatever the site and wherever the run stops, the
    pages opened by [page.goto] are pairwise distinct. *)
Theorem no_page_opened_twice (w : World) (fuel : nat) :
  NoDup (gotos (trace (final (main w fuel initial)))).
Proof. apply run_opened_once, main_reaches. Qed.

(** ** The order of a run *)

Lemma appends_bind {A B} (m : M A) (f : A → M B) :
  appends m → (∀ a, appends (f a)) → appends (m ≫= f).
Proof.
  intros Hm Hf st. unfold mbind, M_bind. destruct (Hm st) as (tr1 & H1 & Hc1).
  destruct (m st) as [a st1|e st1|st1]; simpl in *; [|by eauto..].
  destruct (Hf a st1) as (tr2 & H2 & Hc2). exists (tr1 ++ tr2).
  rewrite H2, H1, (assoc_L (++)). split; [done |].
  by intros [?|?]%elem_of_app.
Qed.

Lemma appends_ret {A} (a : A) : appends (mret a).
Proof. intros st. exists []. simpl. rewrite (right_id_L [] (++)). split; [done |]. by intros ?%elem_of_nil. Qed.

Lemma appends_emit ev : ev ≠ Close → appends (emit ev).
Proof.
  intros Hev st. exists [ev]. split; [done |].
  intros H%list_elem_of_singleton. by apply Hev.
Qed.

(** An event is not in a list of other events. *)
Ltac not_in_list :=
  let H := fresh in
  intros H; repeat (apply elem_of_cons in H as [H|H]; [discriminate H |]);
  by apply elem_of_nil in H.

Lemma appends_parseSite w link : appends (parseSite w link).
Proof.
  intros st. rewrite parseSite_eq. simpl.
  assert (∃ tr, trace st ++ [Goto (PREFIX +:+ link)] = trace st ++ tr ∧ Close ∉ tr)
    as Hopened by (eexists; split; [done | not_in_list]).
  destruct (evaluate w _) as [content|]; [|done].
  destruct (decodeURIComponent w _) as [decoded|]; [|done].
  destruct (normalizeMarkdown _) as [[links nm]|e]; [|done].
  destruct (breadcrumbLinks _) as [crumbs|e]; [|done].
  destruct (prettier_format w _) as [formatted|]; [|done].
  destruct (writable w _); simpl; (eexists; split; [done | not_in_list]).
Qed.

Lemma appends_writeFileSync w path content : appends (writeFileSync w path content).
Proof.
  intros st. unfold writeFileSync.
  destruct (writable w path); simpl; (eexists; split; [done | not_in_list]).
Qed.

Lemma appends_seed w entries links entryPoints :
  appends (seed w entries links entryPoints).
Proof.
  revert links entryPoints. induction entries as [|e entries IH]; intros links eps; simpl.
  - apply appends_ret.
  - apply appends_bind; [apply appends_parseSite |]. intros [entryPoint siteLinks].
    apply appends_bind; [by apply appends_emit |]. intros _. apply IH.
Qed.

Lemma appends_drain w fuel i links : appends (drain w fuel i links).
Proof.
  revert i links. induction fuel as [|fuel IH]; intros i links; simpl.
  - intros st. exists []. simpl. rewrite (right_id_L [] (++)). split; [done |].
    by intros ?%elem_of_nil.
  - destruct (links !! i) as [l|]; [|apply appends_ret].
    intros st. case_bool_decide as Hvis; [apply IH |].
    clear Hvis. revert st. apply appends_bind; [by apply appends_emit |]. intros _.
    apply appends_bind; [apply appends_parseSite |]. intros [entry newLinks].
    apply IH.
Qed.

(** X3. [browser.close()] is the last action of a run of [main] that returns,
    and it is never reached when [main] throws: the browser is left open
    after an exception. *)
Theorem browser_closed_only_on_return (w : World) (fuel : nat) :
  match main w fuel initial with
  | Returned _ st => ∃ tr, trace st = tr ++ [Close] ∧ Close ∉ tr
  | Thrown _ st | OutOfFuel st => Close ∉ trace st
  end.
Proof.
  unfold main, crawl, mbind at 1, M_bind at 1.
  destruct (appends_seed w ENTRY_POINTS [] [] initial) as (tr1 & H1 & Hc1).
  destruct (seed w ENTRY_POINTS [] [] initial) as [[links entryPoints] st1|e st1|st1];
    simpl in H1; [|by rewrite H1..].
  unfold mbind at 1, M_bind at 1.
  destruct (appends_writeFileSync w
              (path_join OUTPUT_DIRECTORY ((ID_PREFIX +:+ "start") +:+ ".md"))
              ("---" +:+ JS.nl +:+ "id: " +:+ (ID_PREFIX +:+ "start") +:+ JS.nl
               +:+ "title: DSA Wiki" +:+ JS.nl +:+ "tags: []" +:+ JS.nl
               +:+ "is_entry_point: true" +:+ JS.nl +:+ "---" +:+ JS.nl
               +:+ "# DSA Wiki" +:+ JS.nl +:+ JS.nl
               +:+ JS.join JS.nl
                     (map (fun e => "- [" +:+ Entry.title e +:+ "](" +:+ Entry.id e
                                    +:+ ")") entryPoints)
               +:+ JS.nl +:+ JS.nl) st1) as (tr2 & H2 & Hc2).
  change (writeFileSync w _ _ st1) with (writeEntryPointFile w entryPoints st1) in H2.
  destruct (writeEntryPointFile w entryPoints st1) as [[] st2|e st2|st2];
    simpl in H2; [|rewrite H2, H1; by intros [?|?]%elem_of_app..].
  unfold mbind at 1, M_bind at 1.
  destruct (appends_drain w fuel 0 links st2) as (tr3 & H3 & Hc3).
  destruct (drain w fuel 0 links st2) as [[] st3|e st3|st3]; simpl in H3.
  - simpl. exists (trace st3). split; [done |]. rewrite H3, H2, H1.
    by intros [[?|?]%elem_of_app|?]%elem_of_app.
  - rewrite H3, H2, H1. by intros [[?|?]%elem_of_app|?]%elem_of_app.
  - rewrite H3, H2, H1. by intros [[?|?]%elem_of_app|?]%elem_of_app.
Qed.

(** [crawl], with the plumbing of the monad evaluated. *)
Lemma crawl_eq entries w fuel st :
  crawl entries w fuel st =
  match seed w entries [] [] st with
  | Returned (links, entryPoints) st1 =>
      match writeEntryPointFile w entryPoints st1 with
      | Returned _ st2 =>
          match drain w fuel 0 links st2 with
          | Returned _ st3 => Returned () (push st3 [Close])
          | Thrown e st3 => Thrown e st3
          | OutOfFuel st3 => OutOfFuel st3
          end
      | Thrown e st2 => Thrown e st2
      | OutOfFuel st2 => OutOfFuel st2
      end
  | Thrown e st1 => Thrown e st1
  | OutOfFuel st1 => OutOfFuel st1
  end.
Proof.
  unfold crawl, mbind, M_bind.
  destruct (seed w entries [] [] st) as [[links entryPoints] st1|e st1|st1]; [|done..].
  destruct (writeEntryPointFile w entryPoints st1) as [[] st2|e st2|st2]; [|done..].
  by destruct (drain w fuel 0 links st2) as [[] st3|e st3|st3].
Qed.

Lemma writeEntryPointFile_eq w entryPoints st :
  ∃ content,
    writeEntryPointFile w entryPoints st
    = if writable w "result/dsa-rule-start.md"
      then Returned () (push st [WriteFile "result/dsa-rule-start.md" content true])
      else Thrown WriteError
             (push st [WriteFile "result/dsa-rule-start.md" content false]).
Proof.
  eexists. unfold writeEntryPointFile, writeFileSync.
  change (path_join OUTPUT_DIRECTORY ((ID_PREFIX +:+ "start") +:+ ".md"))
    with "result/dsa-rule-start.md".
  destruct (writable w _); reflexivity.
Qed.

Lemma seed_Returned
    (w : World) (entries : list string) (links : list Link.t)
    (entryPoints : list Entry.t) (st : State)
    (links' : list Link.t) (entryPoints' : list Entry.t) (st' : State) :
  seed w entries links entryPoints st = Returned (links', entryPoints') st' →
  links' = links ++ concat (linksOf w <$> entries)
  ∧ alreadyParsedIds st' = list_to_set entries ∪ alreadyParsedIds st
  ∧ length entryPoints' = length entryPoints + length entries
  ∧ ∃ tr, trace st' = trace st ++ tr ∧ gotos tr = String.app PREFIX <$> entries.
Proof.
  revert links entryPoints st.
  induction entries as [|e entries IH]; intros links entryPoints st; simpl.
  { intros [= <- <- <-]. rewrite (right_id_L [] (++)), (left_id_L ∅ (∪)).
    repeat split; [lia |]. exists []. by rewrite (right_id_L [] (++)). }
  unfold mbind, M_bind.
  destruct (parseSite w e st) as [[entryPoint siteLinks] st1|err st1|st1] eqn:Ep;
    [|done..].
  apply parseSite_links in Ep as [Hl (path & content & ->)]. simpl in Hl. subst siteLinks.
  simpl. intros (-> & HV & Hlen & tr & Htr & Hg)%IH. simpl in *.
  rewrite <- (assoc_L (++)). split; [done |].
  split; [by rewrite HV, (assoc_L (∪)), (comm_L (∪) (list_to_set entries)) |].
  split; [rewrite Hlen, length_app; simpl; lia |].
  eexists. split; [rewrite Htr, <- !(assoc_L (++)); done |].
  simpl. by rewrite Hg.
Qed.

(** X4. The loop over the entry points, when it returns: the frontier is the
    links of the entry pages, page after page in the declared order, every
    entry point is marked, and the pages opened are the entry points in
    that order. *)
Theorem seeding_result
    (w : World) (entries : list string) (links : list Link.t)
    (entryPoints : list Entry.t) (st : State)
    (links' : list Link.t) (entryPoints' : list Entry.t) (st' : State) :
  seed w entries links entryPoints st = Returned (links', entryPoints') st' →
  links' = links ++ concat (linksOf w <$> entries)
  ∧ alreadyParsedIds st' = list_to_set entries ∪ alreadyParsedIds st
  ∧ length entryPoints' = length entryPoints + length entries
  ∧ ∃ tr, trace st' = trace st ++ tr ∧ gotos tr = String.app PREFIX <$> entries.
Proof. apply seed_Returned. Qed.

Lemma seeding_result_witness :
  ∃ st', seed (world siteAB []) ["index.php/a.html"; "index.php/b.html"] [] [] initial
         = Returned
             ([{| Link.text := "B";
                  Link.wholeLink := "https://ulisses-regelwiki.de/index.php/b.html";
                  Link.link := "index.php/b.html" |};
               {| Link.text := "A";
                  Link.wholeLink := "https://ulisses-regelwiki.de/index.php/a.html";
                  Link.link := "index.php/a.html" |}],
              [{| Entry.id := "dsa-rule-a"; Entry.title := "A" |};
               {| Entry.id := "dsa-rule-b"; Entry.title := "B" |}]) st'
         ∧ alreadyParsedIds st'
           = list_to_set ["index.php/a.html"; "index.php/b.html"]
             ∪ alreadyParsedIds initial.
Proof.
  eexists. split; [vm_compute; reflexivity |].
  refine (proj1 (proj2 (seeding_result (world siteAB [])
                          ["index.php/a.html"; "index.php/b.html"] [] [] initial
                          _ _ _ _))).
  vm_compute. reflexivity.
Defined.

Lemma seed_Thrown w entries links entryPoints st e st' :
  seed w entries links entryPoints st = Thrown e st' →
  ∃ tr k, trace st' = trace st ++ tr
          ∧ gotos tr = String.app PREFIX <$> take k entries.
Proof.
  revert links entryPoints st.
  induction entries as [|x entries IH]; intros links entryPoints st; simpl; [done |].
  unfold mbind, M_bind.
  pose proof (parseSite_effect w x st) as Hp.
  destruct (parseSite w x st) as [[entryPoint siteLinks] st1|err st1|st1]; [| |done].
  - destruct Hp as (_ & _ & content & Htr1). simpl.
    intros (tr & k & Htr & Hg)%IH. simpl in Htr.
    eexists _, (S k). split; [rewrite Htr, Htr1, <- !(assoc_L (++)); done |].
    simpl. by rewrite Hg.
  - intros [= <- <-]. destruct Hp as (_ & evs & Htr & Hevs).
    exists (Goto (PREFIX +:+ x) :: evs), 1. split; [done |]. simpl. f_equal.
    rewrite ?take_0. clear Htr. induction evs as [|ev evs IHevs]; [done |].
    destruct (Hevs ev ltac:(by left)) as (p & c & ->). simpl. apply IHevs.
    intros ev' ?. apply Hevs. by right.
Qed.

(** X5. The entry points come first: in every run of [main], either the trace
    starts with the processing of all entry points, in the declared order,
    followed by the write of the entry-point file, or the run has thrown
    before and only entry points were opened, in that order. *)
Theorem entry_points_first (w : World) (fuel : nat) :
  (∃ seeding content rest,
     trace (final (main w fuel initial))
     = seeding ++ WriteFile "result/dsa-rule-start.md" content true :: rest
     ∧ gotos seeding = String.app PREFIX <$> ENTRY_POINTS)
  ∨ (∃ e st k,
       main w fuel initial = Thrown e st
       ∧ gotos (trace st) = String.app PREFIX <$> take k ENTRY_POINTS).
Proof.
  unfold main. rewrite crawl_eq.
  destruct (seed w ENTRY_POINTS [] [] initial) as [[links entryPoints] st1|e st1|st1] eqn:Es.
  - apply seed_Returned in Es as (_ & _ & _ & seeding & Htr1 & Hg). simpl in Htr1.
    destruct (writeEntryPointFile_eq w entryPoints st1) as [content ->].
    destruct (writable w _).
    + left. destruct (appends_drain w fuel 0 links
                        (push st1 [WriteFile "result/dsa-rule-start.md" content true]))
        as (tr3 & H3 & _).
      simpl in H3. rewrite Htr1 in H3.
      destruct (drain w fuel 0 links _) as [[] st3|e st3|st3]; simpl in *.
      * exists seeding, content, (tr3 ++ [Close]). split; [|done].
        by rewrite H3, <- !(assoc_L (++)).
      * exists seeding, content, tr3. split; [|done]. by rewrite H3, <- !(assoc_L (++)).
      * exists seeding, content, tr3. split; [|done]. by rewrite H3, <- !(assoc_L (++)).
    + right. eexists _, _, (length ENTRY_POINTS). split; [done |]. simpl.
      rewrite Htr1, gotos_app, Hg. reflexivity.
  - right. apply seed_Thrown in Es as (tr & k & Htr & Hg). simpl in Htr.
    exists e, st1, k. split; [done |]. by rewrite Htr.
  - pose proof (seed_no_fuel w ENTRY_POINTS [] [] initial) as H. by rewrite Es in H.
Qed.

(** ** A run that returns has crawled everything it found *)

Lemma elem_of_concat {A} (x : A) (ls : list (list A)) :
  x ∈ concat ls ↔ ∃ l, l ∈ ls ∧ x ∈ l.
Proof.
  rewrite list_elem_of_In, in_concat. split; intros (l & H1 & H2); exists l.
  - by rewrite !list_elem_of_In.
  - by rewrite <- !list_elem_of_In.
Qed.

Lemma drain_complete w fuel i links st st' :
  (∀ j l, j < i → links !! j = Some l → Link.link l ∈ alreadyParsedIds st) →
  (∀ t l, t ∈ alreadyParsedIds st → l ∈ linksOf w t → l ∈ links) →
  drain w fuel i links st = Returned () st' →
  alreadyParsedIds st ⊆ alreadyParsedIds st'
  ∧ ∀ t l, t ∈ alreadyParsedIds st' → l ∈ linksOf w t →
           Link.link l ∈ alreadyParsedIds st'.
Proof.
  revert i links st. induction fuel as [|fuel IH]; intros i links st Hread Hall;
    simpl; [done |].
  destruct (links !! i) as [l|] eqn:Hl.
  2:{ intros [= <-]. split; [done |]. intros t l' Ht Hl'.
      destruct (list_elem_of_lookup_1 _ _ (Hall t l' Ht Hl')) as [j Hj].
      apply (Hread j); [|done]. apply lookup_ge_None in Hl.
      apply lookup_lt_Some in Hj. lia. }
  case_bool_decide as Hvis.
  { apply IH; [|done]. intros j l' Hj Hl'.
    destruct (decide (j = i)) as [->|]; [by simplify_eq |]. apply (Hread j); [lia | done]. }
  unfold mbind, M_bind. simpl.
  destruct (parseSite w (Link.link l) _) as [[entry newLinks] st1|e st1|st1] eqn:Ep;
    [|done..].
  apply parseSite_links in Ep as [Hlinks (path & content & ->)].
  simpl in Hlinks. subst newLinks. intros Hd.
  apply IH in Hd as [Hsub Hclosed].
  - split; [|done]. etrans; [|exact Hsub]. simpl. apply union_subseteq_r.
  - simpl. intros j l' Hj Hl'. destruct (decide (j = i)) as [->|].
    + rewrite lookup_app_l in Hl' by (by eapply lookup_lt_Some).
      apply elem_of_union. left. apply elem_of_singleton. congruence.
    + apply elem_of_union. right. apply (Hread j); [lia |].
      apply lookup_lt_Some in Hl. by rewrite lookup_app_l in Hl' by lia.
  - simpl. intros t l' [->%elem_of_singleton|Ht]%elem_of_union Hl';
      apply elem_of_app; [by right | left; by eapply Hall].
Qed.

(** X6. When [main] returns, every entry point is marked and every link of a
    marked page leads to a marked page: the run has processed all it could
    reach. *)
Theorem returned_run_is_complete (w : World) (fuel : nat) (st : State) :
  main w fuel initial = Returned () st →
  (∀ e, e ∈ ENTRY_POINTS → e ∈ alreadyParsedIds st)
  ∧ (∀ t l, t ∈ alreadyParsedIds st → l ∈ linksOf w t →
            Link.link l ∈ alreadyParsedIds st).
Proof.
  unfold main. rewrite crawl_eq.
  destruct (seed w ENTRY_POINTS [] [] initial) as [[links entryPoints] st1|e st1|st1] eqn:Es;
    [|done..].
  apply seed_Returned in Es as (-> & HV & _ & _).
  change (alreadyParsedIds initial) with (∅ : gset string) in HV.
  rewrite (right_id_L ∅ (∪)) in HV.
  destruct (writeEntryPointFile_eq w entryPoints st1) as [content ->].
  destruct (writable w _); [|done].
  destruct (drain w fuel 0 _ _) as [[] st3|e st3|st3] eqn:Ed; [|done..].
  intros [= <-]. simpl.
  apply drain_complete in Ed as [Hsub Hclosed].
  - split; [|done]. intros e He. apply Hsub. simpl. rewrite HV.
    by apply elem_of_list_to_set.
  - intros j l Hj. lia.
  - intros t l Ht Hl. apply elem_of_concat. exists (linksOf w t). split; [|done].
    apply list_elem_of_fmap. exists t. split; [done |].
    simpl in Ht. rewrite HV in Ht. by apply elem_of_list_to_set in Ht.
Qed.

Lemma returned_run_is_complete_witness :
  "index.php/c.html"
  ∈ alreadyParsedIds (final (main (world siteHub []) 100 initial)).
Proof.
  refine (proj2 (returned_run_is_complete (world siteHub []) 100
                   (final (main (world siteHub []) 100 initial)) _)
            "index.php/regeln.html"
            {| Link.text := "C"; Link.wholeLink := "index.php/c.html";
               Link.link := "index.php/c.html" |} _ _).
  - by vm_compute.
  - apply (proj1 (returned_run_is_complete (world siteHub []) 100 _ ltac:(by vm_compute))).
    unfold ENTRY_POINTS. set_solver.
  - apply (bool_decide_unpack _). by vm_compute.
Defined.

(** ** The matcher against the language of a regular expression *)

Lemma star_sound {A} p s (k : string → option A) x :
  Regex.star p s k = Some x →
  ∃ m rest, s = m +:+ rest ∧ JS.all p m = true ∧ k rest = Some x.
Proof.
  induction s as [|c s IH]; simpl.
  - intros Hk. by exists "", "".
  - destruct (p c) eqn:Hc; [|intros Hk; by exists "", (String c s)].
    destruct (Regex.star p s k) as [y|] eqn:Hs.
    + intros [= ->]. destruct (IH eq_refl) as (m & rest & -> & Hm & Hk).
      exists (String c m), rest. simpl. by rewrite Hc, Hm.
    + intros Hk. by exists "", (String c s).
Qed.

Lemma run_sound {A} r s caps (k : string → list string → option A) x :
  Regex.run r s caps k = Some x →
  ∃ m rest caps', s = m +:+ rest ∧ Matches r m caps'
                  ∧ k rest (caps ++ caps') = Some x.
Proof.
  revert s caps k x. induction r as [c|p|p|p|r1 IH1 r2 IH2|r IH];
    intros s caps k x; simpl.
  - destruct s as [|d s]; [done |]. destruct (Ascii.eqb c d) eqn:E; [|done].
    apply Ascii.eqb_eq in E as <-. intros Hk.
    exists (String c ""), s, []. rewrite (right_id_L [] (++)).
    split; [done |]. split; [constructor | done].
  - destruct s as [|d s]; [done |]. destruct (p d) eqn:E; [|done]. intros Hk.
    exists (String d ""), s, []. rewrite (right_id_L [] (++)).
    split; [done |]. split; [by constructor | done].
  - intros (m & rest & -> & Hm & Hk)%star_sound.
    exists m, rest, []. rewrite (right_id_L [] (++)).
    split; [done |]. split; [by constructor | done].
  - destruct s as [|d s]; [done |]. destruct (p d) eqn:E; [|done].
    intros (m & rest & -> & Hm & Hk)%star_sound.
    exists (String d m), rest, []. rewrite (right_id_L [] (++)).
    split; [done |]. split; [|done]. constructor; [done |]. simpl. by rewrite E, Hm.
  - intros (m1 & rest1 & caps1 & -> & H1 & Hk)%IH1.
    apply IH2 in Hk as (m2 & rest2 & caps2 & -> & H2 & Hk).
    exists (m1 +:+ m2), rest2, (caps1 ++ caps2).
    rewrite str_app_assoc, (assoc_L (++)). split; [done |].
    split; [by constructor | done].
  - intros (m & rest & caps' & -> & Hm & Hk)%IH.
    rewrite consumed_app, <- (assoc_L (++)) in Hk.
    exists m, rest, (caps' ++ [m]). split; [done |]. split; [by constructor | done].
Qed.

Lemma matchHere_sound r s m :
  Regex.matchHere r s = Some m →
  Regex.before m = "" ∧ s = Regex.matched m +:+ Regex.after m
  ∧ Matches r (Regex.matched m) (Regex.captures m).
Proof.
  unfold Regex.matchHere.
  intros (m' & rest & caps & -> & Hm & [= <-])%run_sound. simpl.
  by rewrite consumed_app.
Qed.

Lemma exec_sound r s m :
  Regex.exec r s = Some m →
  s = Regex.before m +:+ Regex.matched m +:+ Regex.after m
  ∧ Matches r (Regex.matched m) (Regex.captures m).
Proof.
  revert m. induction s as [|c s IH]; intros m; rewrite exec_unfold.
  - destruct (Regex.matchHere r "") as [m'|] eqn:E; [|done].
    intros [= <-]. by apply matchHere_sound in E as (-> & ? & ?).
  - destruct (Regex.matchHere r (String c s)) as [m'|] eqn:E.
    + intros [= <-]. by apply matchHere_sound in E as (-> & ? & ?).
    + destruct (Regex.exec r s) as [m'|]; [|done].
      intros [= <-]. simpl. destruct (IH m' eq_refl) as [Hs Hm].
      by rewrite str_app_cons, <- Hs.
Qed.

Lemma scan_sound fuel r s ms tail :
  Regex.scan fuel r s = (ms, tail) →
  s = foldr (λ m acc, Regex.before m +:+ Regex.matched m +:+ acc) tail ms
  ∧ Forall (λ m, Matches r (Regex.matched m) (Regex.captures m)) ms.
Proof.
  revert s ms tail. induction fuel as [|fuel IH]; intros s ms tail; simpl.
  { by intros [= <- <-]. }
  destruct (Regex.exec r s) as [m|] eqn:E; [|by intros [= <- <-]].
  apply exec_sound in E as [Hs Hm].
  destruct (Regex.matched m) as [|c mm] eqn:Emm.
  - destruct (Regex.after m) as [|c rest] eqn:Ea.
    + intros [= <- <-]. simpl. rewrite Emm. split; [done |].
      constructor; [by rewrite Emm in * | done].
    + destruct (Regex.scan fuel r rest) as [[|m' ms'] tail'] eqn:Es;
        destruct (IH _ _ _ Es) as [Hrest Hall]; intros [= <- <-]; simpl.
      * rewrite Emm. split; [by rewrite Hs, Hrest |].
        constructor; [by rewrite Emm in * | done].
      * rewrite Emm. apply Forall_cons in Hall as [Hm' Hall].
        split; [by rewrite Hs, Hrest |].
        constructor; [by rewrite Emm in * |]. by constructor.
  - destruct (Regex.scan fuel r (Regex.after m)) as [ms' tail'] eqn:Es.
    destruct (IH _ _ _ Es) as [Hrest Hall]. intros [= <- <-]. simpl.
    rewrite Emm. split; [by rewrite Hs, Hrest |].
    constructor; [by rewrite Emm in * | done].
Qed.

(** ** Link extraction on any text *)

Ltac invert_Matches :=
  repeat match goal with
         | H : Matches (Seq _ _) _ _ |- _ => inversion H; subst; clear H
         | H : Matches (Group _) _ _ |- _ => inversion H; subst; clear H
         | H : Matches (Chr _) _ _ |- _ => inversion H; subst; clear H
         | H : Matches (Plus _) _ _ |- _ => inversion H; subst; clear H
         | H : Matches (Star _) _ _ |- _ => inversion H; subst; clear H
         end.

Lemma singleMatch_inv m caps :
  Matches singleMatch m caps →
  ∃ t u, m = mdLink t u ∧ caps = [t; u] ∧ t ≠ ""
         ∧ JS.all (noneOf "[") t = true ∧ JS.all dot u = true.
Proof.
  unfold singleMatch. intros H. invert_Matches.
  match goal with
  | Ht : JS.all (noneOf "[") ?t = true, Hu : JS.all dot ?u = true |- _ =>
      exists t, u
  end.
  by repeat split.
Qed.

Lemma regexMdLinks_inv m caps :
  Matches regexMdLinks m caps →
  ∃ t u, m = mdLink t u ∧ t ≠ ""
         ∧ JS.all (noneOf "[") t = true ∧ JS.all (noneOf "[[])") u = true.
Proof.
  unfold regexMdLinks. intros H. invert_Matches.
  match goal with
  | Ht : JS.all (noneOf "[") ?t = true, Hu : JS.all (noneOf "[[])") ?u = true |- _ =>
      exists t, u
  end.
  by repeat split.
Qed.

Lemma matched_includes (ms : list Regex.Match) tail m :
  m ∈ ms →
  JS.includes
    (foldr (λ m acc, Regex.before m +:+ Regex.matched m +:+ acc) tail ms)
    (Regex.matched m) = true.
Proof.
  induction ms as [|m' ms IH]; [by intros ?%elem_of_nil |].
  intros [->|Hin]%elem_of_cons; simpl; apply includes_true.
  - by eexists _, _.
  - apply IH, includes_true in Hin as (b & a & ->).
    exists (Regex.before m' +:+ Regex.matched m' +:+ b), a.
    by rewrite !str_app_assoc.
Qed.

Lemma includes_trans s m x :
  JS.includes s m = true → JS.includes m x = true → JS.includes s x = true.
Proof.
  intros (b & a & ->)%includes_true (b' & a' & ->)%includes_true.
  apply includes_true. exists (b +:+ b'), (a' +:+ a). by rewrite !str_app_assoc.
Qed.

Lemma destructure_sound m l :
  destructure m = Ok l →
  Link.text l ≠ ""
  ∧ JS.all (noneOf "[") (Link.text l) = true
  ∧ JS.all dot (Link.wholeLink l) = true
  ∧ Link.link l = normalizeLink (Link.wholeLink l)
  ∧ JS.includes m (mdLink (Link.text l) (Link.wholeLink l)) = true.
Proof.
  unfold destructure. destruct (Regex.exec singleMatch m) as [r|] eqn:E; [|done].
  apply exec_sound in E as [Hm (t & u & Hmd & Hc & Ht & Hpt & Hu)%singleMatch_inv].
  rewrite Hc. intros [= <-]. simpl. repeat split; try done.
  apply includes_true. exists (Regex.before r), (Regex.after r). by rewrite <- Hmd.
Qed.

Lemma parseLinks_loop_sound (P : Link.t → Prop) ms acc links :
  parseLinks_loop ms acc = Ok links →
  Forall P acc →
  Forall (λ m, ∀ l, destructure m = Ok l → P l) ms →
  Forall P links ∧ length links = length acc + length ms.
Proof.
  revert acc. induction ms as [|m ms IH]; intros acc; simpl.
  - intros [= <-] Hacc _. split; [done | lia].
  - destruct (destructure m) as [l|e] eqn:E; [|done].
    intros Hloop Hacc [Hm Hms]%Forall_cons.
    destruct (IH _ Hloop) as [Hall Hlen]; [|done |].
    + apply Forall_app. split; [done |]. constructor; [by apply Hm | done].
    + split; [done |]. rewrite Hlen, length_app. simpl. lia.
Qed.

(** X7. Whatever the text, every link that [parseLinks] returns has a text that
    is not empty and has no opening bracket, a target on one line, the
    normalised target in [link], and its markdown [[text](target)] occurs in
    the text the links were extracted from. *)
Theorem parseLinks_sound (text : string) (links : list Link.t) :
  parseLinks text = Ok links →
  Forall (λ l,
    Link.text l ≠ ""
    ∧ JS.all (noneOf "[") (Link.text l) = true
    ∧ JS.all dot (Link.wholeLink l) = true
    ∧ Link.link l = normalizeLink (Link.wholeLink l)
    ∧ JS.includes text (mdLink (Link.text l) (Link.wholeLink l)) = true) links.
Proof.
  unfold parseLinks, Regex.match_g, Regex.matches.
  destruct (Regex.scan _ regexMdLinks text) as [ms tail] eqn:Es. simpl.
  apply scan_sound in Es as [Htext _]. intros Hloop.
  eapply parseLinks_loop_sound; [exact Hloop | constructor |].
  apply Forall_fmap, Forall_forall. intros m Hm l Hl. simpl in Hl.
  apply destructure_sound in Hl as (? & ? & ? & ? & Hin). repeat split; try done.
  eapply includes_trans; [|exact Hin]. rewrite Htext. by apply matched_includes.
Qed.

Lemma parseLinks_sound_witness :
  Forall (λ l,
    Link.text l ≠ ""
    ∧ JS.all (noneOf "[") (Link.text l) = true
    ∧ JS.all dot (Link.wholeLink l) = true
    ∧ Link.link l = normalizeLink (Link.wholeLink l)
    ∧ JS.includes "[Foo](bar.html) and [Baz](http://example.org/qux.html)"
        (mdLink (Link.text l) (Link.wholeLink l)) = true)
    [{| Link.text := "Foo"; Link.wholeLink := "bar.html"; Link.link := "bar.html" |};
     {| Link.text := "Baz"; Link.wholeLink := "http://example.org/qux.html";
        Link.link := "http://example.org/qux.html" |}].
Proof.
  apply (parseLinks_sound "[Foo](bar.html) and [Baz](http://example.org/qux.html)").
  reflexivity.
Defined.

Lemma startsWith_nil s : JS.startsWith s "" = true.
Proof. by destruct s. Qed.

Lemma includes_char (c : ascii) s :
  JS.includes s (String c "") = false
  ↔ JS.all (λ d, negb (Ascii.eqb c d)) s = true.
Proof.
  unfold JS.includes. induction s as [|d s IH]; [done |].
  rewrite cut_unfold, all_cons. simpl. rewrite startsWith_nil, Ascii.eqb_sym.
  destruct (Ascii.eqb d c); simpl; [done |].
  destruct (JS.cut (String c "") s) as [[??]|]; simpl in *; [|done].
  split; [done |]. intros H. by apply IH in H.
Qed.

(** X8. Text without an opening bracket, the empty text among them, has no
    links: [parseLinks] returns the empty list and throws nothing, and the
    page processor only repairs the markdown. *)
Theorem parseLinks_without_bracket (text : string) :
  JS.includes text "[" = false →
  parseLinks text = Ok []
  ∧ normalizeMarkdown text = Ok ([], repairMarkdown text).
Proof.
  intros H%includes_char.
  assert (parseLinks text = Ok []) as Hp.
  { unfold parseLinks, Regex.match_g, regexMdLinks.
    by rewrite (matches_without "[" _ text H). }
  split; [done |]. unfold normalizeMarkdown. by rewrite Hp.
Qed.

Lemma parseLinks_without_bracket_witness :
  parseLinks "Regeln (ohne Verweis)" = Ok []
  ∧ normalizeMarkdown "Regeln (ohne Verweis)"
    = Ok ([], repairMarkdown "Regeln (ohne Verweis)").
Proof. apply (parseLinks_without_bracket "Regeln (ohne Verweis)"). reflexivity. Defined.

(** ** A link target with a line break *)

Lemma star_none_stop {A} p q a d b (k : string → option A) :
  (∀ c s', q c = false → k (String c s') = None) →
  JS.all (λ c, negb (q c)) a = true → q d = false → p d = false →
  Regex.star p (a +:+ String d b) k = None.
Proof.
  intros Hk Ha Hd Hpd. induction a as [|c a IH].
  - rewrite str_app_nil_l, star_stop by done. by apply Hk.
  - rewrite all_cons in Ha. apply andb_true_iff in Ha as [Hc Ha].
    apply negb_true_iff in Hc. rewrite str_app_cons. simpl.
    rewrite (IH Ha), (Hk c _ Hc). by destruct (p c).
Qed.

Lemma star_none_except {A} p q a c0 b (k : string → option A) :
  k "" = None →
  (∀ c s', q c = false → k (String c s') = None) →
  JS.all (λ c, negb (q c)) a = true → JS.all (λ c, negb (q c)) b = true →
  k (String c0 b) = None →
  Regex.star p (a +:+ String c0 b) k = None.
Proof.
  intros Hnil Hk Ha Hb Hc0. induction a as [|c a IH].
  - rewrite str_app_nil_l. simpl. rewrite (star_none p q b k), Hc0 by done.
    by destruct (p c0).
  - rewrite all_cons in Ha. apply andb_true_iff in Ha as [Hc Ha].
    apply negb_true_iff in Hc. rewrite str_app_cons. simpl.
    rewrite (IH Ha), (Hk c _ Hc). by destruct (p c).
Qed.

Lemma matchHere_regexMdLinks_text t u post :
  t ≠ "" → plainText t = true → plainText u = true → plainText post = true →
  Regex.matchHere regexMdLinks (mdLink t u +:+ post)
  = Some {| Regex.before := ""; Regex.matched := mdLink t u;
            Regex.captures := [t; "(" +:+ u +:+ ")"]; Regex.after := post |}.
Proof.
  intros Ht Hpt Hpu Hpost.
  rewrite mdLink_app. unfold Regex.matchHere, regexMdLinks.
  destruct t as [|d t]; [done |].
  pose proof Hpt as Hpt'. unfold plainText in Hpt'. rewrite all_cons in Hpt'.
  apply andb_true_iff in Hpt' as [Hd Hpt'].
  cbn [Regex.run]. rewrite Ascii.eqb_refl, str_app_cons.
  rewrite (plain_noneOf "[" d) by done.
  erewrite star_app_some; [reflexivity | by apply plainText_noneOf |].
  rewrite (star_cons_true _ "]") by done.
  rewrite (star_none _ (Ascii.eqb "]")); [| done | by intros c s' -> |
    by apply no_bracket_after].
  rewrite !Ascii.eqb_refl.
  erewrite star_app_some; [reflexivity | by apply plainText_noneOf |].
  rewrite star_stop by done. rewrite Ascii.eqb_refl.
  do 2 f_equal.
  - transitivity (Regex.consumed (mdLink (String d t) u +:+ post) post);
      [by rewrite mdLink_app | apply consumed_app].
  - cbn [app]. f_equal; [|f_equal].
    + apply (consumed_app (String d t)).
    + transitivity (Regex.consumed (("(" +:+ u +:+ ")") +:+ post) post);
        [by rewrite !str_app_assoc | apply consumed_app].
Qed.

Lemma match_g_single_link_text pre t u post :
  t ≠ "" → plainText pre = true → plainText t = true → plainText u = true →
  plainText post = true →
  Regex.match_g regexMdLinks (pre +:+ mdLink t u +:+ post) = [mdLink t u].
Proof.
  intros Ht Hpre Hpt Hu Hpost. unfold Regex.match_g, Regex.matches.
  cbn [Regex.scan].
  pose proof (matchHere_regexMdLinks_text t u post Ht Hpt Hu Hpost) as Hm.
  unfold regexMdLinks in *.
  rewrite (exec_skip "[" _ pre _ _ (plainText_without "[" pre eq_refl Hpre) Hm).
  cbn [Regex.matched Regex.after]. unfold mdLink at 1.
  change ("[" +:+ ?x) with (String "[" x).
  destruct (Regex.scan _ _ post) as [ms tail] eqn:Hs.
  assert (ms = []) as ->; [|done].
  destruct (String.length (pre +:+ mdLink t u +:+ post)); simpl in Hs; [by simplify_eq |].
  rewrite exec_without in Hs by (by apply plainText_without). by simplify_eq.
Qed.

Lemma line_terminator_plain c : dot c = false → plain c = true.
Proof.
  unfold dot. intros [->%Ascii.eqb_eq| ->%Ascii.eqb_eq]%negb_false_iff%orb_true_iff;
    reflexivity.
Qed.

Lemma exec_singleMatch_line_break t u1 c u2 :
  t ≠ "" → plainText t = true → plainText u1 = true → dot c = false →
  plainText u2 = true →
  Regex.exec singleMatch (mdLink t (u1 +:+ String c u2)) = None.
Proof.
  intros Ht Hpt Hu1 Hc Hu2. pose proof (line_terminator_plain c Hc) as Hpc.
  assert (plainText (u1 +:+ String c u2) = true) as Hu.
  { unfold plainText in *. by rewrite str_all_app, all_cons, Hu1, Hpc, Hu2. }
  rewrite <- (str_app_nil_r (mdLink t _)), mdLink_app.
  rewrite exec_unfold.
  assert (Regex.matchHere singleMatch
            (String "[" (t +:+ String "]" (String "(" ((u1 +:+ String c u2)
                                                       +:+ String ")" ""))))
          = None) as ->.
  { unfold Regex.matchHere, singleMatch.
    destruct t as [|d t]; [done |].
    pose proof Hpt as Hpt'. unfold plainText in Hpt'. rewrite all_cons in Hpt'.
    apply andb_true_iff in Hpt' as [Hd Hpt'].
    cbn [Regex.run]. rewrite Ascii.eqb_refl, str_app_cons.
    rewrite (plain_noneOf "[" d) by done.
    apply (star_none_except _ (Ascii.eqb "]")); [done | by intros ? ? -> | | |].
    - rewrite <- (negb_involutive true). by apply plainText_without.
    - change true with (negb false). by apply no_bracket_after.
    - rewrite !Ascii.eqb_refl, str_app_assoc, str_app_cons.
      apply (star_none_stop _ (Ascii.eqb ")")); [by intros ? ? -> | | | done].
      + by apply plainText_without.
      + apply Ascii.eqb_neq. intros <-. done. }
  unfold singleMatch.
  rewrite exec_without; [done |].
  rewrite str_all_app, !all_cons, str_all_app, all_cons.
  by rewrite !(plainText_without "[").
Qed.

(** X9. A link whose target holds a line break makes [parseLinks] throw: the
    target passes [regexMdLinks], whose class of target characters admits
    line breaks, and [singleMatch.exec] returns [null] on the match, which
    the destructuring assignment rejects.  [parseSite] throws the same
    [TypeError] before the page is written or marked. *)
Theorem link_with_line_break_throws
    (w : World) (link : string) (st : State) (content : Content)
    (decoded pre t u1 u2 post : string) (c : ascii) :
  t ≠ "" → plainText pre = true → plainText t = true → plainText u1 = true →
  dot c = false → plainText u2 = true → plainText post = true →
  evaluate w (PREFIX +:+ link) = Some content →
  decodeURIComponent w (content_id content) = Some decoded →
  markdownOf w content = pre +:+ mdLink t (u1 +:+ String c u2) +:+ post →
  parseLinks (markdownOf w content) = Err TypeError_not_iterable
  ∧ parseSite w link st
    = Thrown TypeError_not_iterable (push st [Goto (PREFIX +:+ link)]).
Proof.
  intros Ht Hpre Hpt Hu1 Hc Hu2 Hpost Hev Hdec Hmd.
  assert (parseLinks (markdownOf w content) = Err TypeError_not_iterable) as Hp.
  { rewrite Hmd. unfold parseLinks. rewrite match_g_single_link_text; try done.
    - simpl. unfold destructure. by rewrite exec_singleMatch_line_break.
    - unfold plainText in *.
      by rewrite str_all_app, all_cons, Hu1, (line_terminator_plain c Hc), Hu2. }
  split; [done |].
  rewrite parseSite_eq, Hev, Hdec. simpl. unfold normalizeMarkdown.
  by rewrite Hp.
Qed.

Lemma link_with_line_break_throws_witness :
  parseSite
    (world (λ _, Some (page "/index.php/regeln.html" "Regeln - DSA Regel Wiki"
                         ("siehe " +:+ mdLink "Foo" ("bar" +:+ String JS.LF ".html")
                          +:+ ".") [])) [])
    "index.php/regeln.html" initial
  = Thrown TypeError_not_iterable
      (push initial [Goto (PREFIX +:+ "index.php/regeln.html")]).
Proof.
  refine (proj2 (link_with_line_break_throws _ "index.php/regeln.html" initial _
                   "/index.php/regeln.html" "siehe " "Foo" "bar" ".html" "." JS.LF
                   _ _ _ _ _ _ _ _ _ _));
    done || reflexivity.
Defined.

(** ** The repairs of the markdown *)

(** X10. Markdown without asterisk and without backslash is left as it is. *)
Theorem repairMarkdown_fixed (markdown : string) :
  JS.includes markdown "*" = false → JS.includes markdown "\" = false →
  repairMarkdown markdown = markdown.
Proof.
  intros Hstar%includes_char Hback%includes_char.
  unfold repairMarkdown, regexEmphasis, regexEscapedHash.
  by rewrite (replace_g_without "*"), (replace_g_without "\").
Qed.

Lemma repairMarkdown_fixed_witness :
  repairMarkdown "Regeln: [Kampf](index.php/kampf.html)"
  = "Regeln: [Kampf](index.php/kampf.html)".
Proof. apply repairMarkdown_fixed; reflexivity. Defined.

Lemma star_here {A} p b (k : string → option A) :
  match b with EmptyString => True | String d _ => p d = false end →
  Regex.star p b k = k b.
Proof. destruct b as [|d b]; [done |]. intros H. simpl. by rewrite H. Qed.

Lemma star_run {A} p a b (k : string → option A) r :
  JS.all p a = true →
  match b with EmptyString => True | String d _ => p d = false end →
  k b = Some r → Regex.star p (a +:+ b) k = Some r.
Proof. intros Ha Hb Hk. apply star_app_some; [done |]. by rewrite star_here. Qed.

Lemma without_app (c : ascii) a b :
  JS.all (λ d, negb (Ascii.eqb c d)) (a +:+ b)
  = JS.all (λ d, negb (Ascii.eqb c d)) a && JS.all (λ d, negb (Ascii.eqb c d)) b.
Proof. apply str_all_app. Qed.

Lemma matchHere_regexEmphasis sp nls d c post :
  JS.all (oneOf " ") sp = true → JS.all (oneOf JS.nl) nls = true →
  oneOf " " d = false → oneOf JS.nl d = false →
  JS.all (noneOf "*") (String d c) = true →
  Regex.matchHere regexEmphasis
    (String "*" (sp +:+ nls +:+ String d c +:+ String "*" post))
  = Some {| Regex.before := "";
            Regex.matched := String "*" (sp +:+ nls +:+ String d c +:+ "*");
            Regex.captures := [String d c]; Regex.after := post |}.
Proof.
  intros Hsp Hnls Hd1 Hd2 Hc. unfold Regex.matchHere, regexEmphasis.
  cbn [Regex.run]. rewrite Ascii.eqb_refl.
  rewrite all_cons in Hc. apply andb_true_iff in Hc as [Hd Hc].
  erewrite (star_run (oneOf " ") sp); [reflexivity | done | |].
  { destruct nls as [|n nls]; [done |]. rewrite str_app_cons.
    rewrite all_cons in Hnls. apply andb_true_iff in Hnls as [Hn _].
    unfold oneOf in *. simpl in *. rewrite orb_false_r in *.
    apply Ascii.eqb_eq in Hn as ->. done. }
  erewrite (star_run (oneOf JS.nl) nls); [reflexivity | done | done |].
  rewrite str_app_cons, Hd.
  erewrite (star_run (noneOf "*") c); [reflexivity | done | done |].
  rewrite star_here by done. rewrite Ascii.eqb_refl.
  do 2 f_equal.
  - transitivity (Regex.consumed
                    (String "*" (sp +:+ nls +:+ String d c +:+ "*") +:+ post) post);
      [|apply consumed_app].
    f_equal. rewrite str_app_cons, !str_app_assoc. done.
  - cbn [app]. f_equal. rewrite <- str_app_cons. apply consumed_app.
Qed.

(** X11. The repair of emphasis: the spaces and line feeds that follow an
    opening asterisk are removed, when
    the emphasised text has no asterisk and starts with neither, and the
    text around has no asterisk and no backslash. *)
Theorem repairMarkdown_emphasis_spaces (pre sp nls content post : string) :
  JS.includes pre "*" = false → JS.includes post "*" = false →
  JS.includes (pre +:+ content +:+ post) "\" = false →
  JS.all (oneOf " ") sp = true → JS.all (oneOf JS.nl) nls = true →
  JS.includes content "*" = false →
  match content with
  | EmptyString => False
  | String d _ => oneOf " " d = false ∧ oneOf JS.nl d = false
  end →
  repairMarkdown (pre +:+ "*" +:+ sp +:+ nls +:+ content +:+ "*" +:+ post)
  = pre +:+ "*" +:+ content +:+ "*" +:+ post.
Proof.
  intros Hpre%includes_char Hpost%includes_char Hback%includes_char Hsp Hnls
    Hc%includes_char Hhead.
  destruct content as [|d c]; [done |]. destruct Hhead as [Hd1 Hd2].
  rewrite !without_app in Hback. apply andb_true_iff in Hback as [Hb1 Hb23].
  apply andb_true_iff in Hb23 as [Hb2 Hb3].
  assert (JS.all (noneOf "*") (String d c) = true) as Hc'.
  { revert Hc. apply all_impl. intros x Hx. unfold noneOf. simpl.
    by rewrite orb_false_r, Ascii.eqb_sym. }
  unfold repairMarkdown.
  assert (Regex.replace_g regexEmphasis
            (λ _ caps, "*" +:+ nth 0 caps "" +:+ "*")
            (pre +:+ "*" +:+ sp +:+ nls +:+ String d c +:+ "*" +:+ post)
          = pre +:+ "*" +:+ String d c +:+ "*" +:+ post) as ->.
  { unfold Regex.replace_g, Regex.matches. cbn [Regex.scan].
    pose proof (matchHere_regexEmphasis sp nls d c post Hsp Hnls Hd1 Hd2 Hc') as Hm.
    unfold regexEmphasis in *.
    change ("*" +:+ sp +:+ nls +:+ String d c +:+ "*" +:+ post)
      with (String "*" (sp +:+ nls +:+ String d c +:+ String "*" post)).
    rewrite (exec_skip "*" _ pre _ _ Hpre Hm). cbn [Regex.matched Regex.after].
    destruct (Regex.scan _ _ post) as [ms tail] eqn:Hs.
    assert (ms = [] ∧ tail = post) as [-> ->].
    { destruct (String.length _); simpl in Hs; [by simplify_eq |].
      rewrite exec_without in Hs by done. by simplify_eq. }
    simpl. rewrite str_app_nil_r. f_equal.
    change (String "*" ((String d c +:+ "*") +:+ post)
            = String "*" (String d c +:+ "*" +:+ post)).
    by rewrite str_app_assoc. }
  unfold regexEscapedHash. apply replace_g_without.
  change ("*" +:+ String d c +:+ "*" +:+ post)
    with (String "*" (String d c +:+ String "*" post)).
  rewrite without_app, all_cons, without_app, Hb1, Hb2, all_cons, Hb3.
  reflexivity.
Qed.

Lemma repairMarkdown_emphasis_spaces_witness :
  repairMarkdown ("Text " +:+ "*" +:+ "  " +:+ JS.nl +:+ "Lorem ipsum:" +:+ "*"
                  +:+ " mehr")
  = "Text " +:+ "*" +:+ "Lorem ipsum:" +:+ "*" +:+ " mehr".
Proof.
  apply (repairMarkdown_emphasis_spaces "Text " "  " JS.nl "Lorem ipsum:" " mehr");
    try reflexivity.
  by split.
Defined.

Lemma all_join p sep parts :
  JS.all p sep = true → Forall (λ part, JS.all p part = true) parts →
  JS.all p (JS.join sep parts) = true.
Proof.
  intros Hsep. induction 1 as [|part parts Hpart Hparts IH]; [done |].
  destruct parts as [|part' parts]; [done |].
  change (JS.join sep (part :: part' :: parts))
    with (part +:+ sep +:+ JS.join sep (part' :: parts)).
  by rewrite !str_all_app, Hpart, Hsep, IH.
Qed.

Lemma scan_escaped_hash (f : string → list string → string) parts : ∀ fuel,
  Forall (λ part, JS.all (λ d, negb (Ascii.eqb "\" d)) part = true) parts →
  String.length (JS.join "\#" parts) < fuel →
  (let '(ms, tail) := Regex.scan fuel regexEscapedHash (JS.join "\#" parts) in
   foldr (λ m acc, Regex.before m
                   +:+ f (Regex.matched m) (Regex.captures m) +:+ acc) tail ms)
  = JS.join (f "\#" []) parts.
Proof.
  induction parts as [|part parts IH]; intros fuel Hparts Hfuel.
  { destruct fuel; [simpl in Hfuel; lia | done]. }
  apply Forall_cons in Hparts as [Hpart Hparts].
  destruct fuel as [|fuel]; [lia |].
  destruct parts as [|part' parts].
  { simpl. unfold regexEscapedHash. by rewrite exec_without. }
  change (JS.join "\#" (part :: part' :: parts))
    with (part +:+ String "\" (String "#" (JS.join "\#" (part' :: parts)))) in *.
  change (JS.join (f "\#" []) (part :: part' :: parts))
    with (part +:+ f "\#" [] +:+ JS.join (f "\#" []) (part' :: parts)).
  set (rest := JS.join "\#" (part' :: parts)) in *.
  assert (Regex.matchHere regexEscapedHash (String "\" (String "#" rest))
          = Some {| Regex.before := ""; Regex.matched := "\#";
                    Regex.captures := []; Regex.after := rest |}) as Hm.
  { unfold Regex.matchHere, regexEscapedHash. simpl. do 2 f_equal.
    apply (consumed_app "\#" rest). }
  cbn [Regex.scan]. unfold regexEscapedHash in *.
  rewrite (exec_skip "\" _ part _ _ Hpart Hm). cbn [Regex.matched Regex.after].
  specialize (IH fuel Hparts). rewrite str_length_app in Hfuel. simpl in Hfuel.
  destruct (Regex.scan fuel _ rest) as [ms tail].
  cbn [foldr Regex.before Regex.matched Regex.captures].
  rewrite str_app_nil_r, <- IH by lia. done.
Qed.

(** X12. Every escaped hash of the markdown becomes a hyphen: pieces of text
    without asterisk and without backslash that are joined by <<\#>> come
    out joined by <<->>. *)
Theorem repairMarkdown_escaped_hash (parts : list string) :
  Forall (λ part, JS.includes part "*" = false ∧ JS.includes part "\" = false)
    parts →
  repairMarkdown (JS.join "\#" parts) = JS.join "-" parts.
Proof.
  intros Hparts. unfold repairMarkdown, regexEmphasis.
  rewrite (replace_g_without "*").
  - unfold Regex.replace_g, Regex.matches.
    apply (scan_escaped_hash (λ _ _, "-")); [|lia].
    eapply Forall_impl; [exact Hparts |]. intros part [_ H]. by apply includes_char.
  - apply all_join; [done |].
    eapply Forall_impl; [exact Hparts |]. intros part [H _]. by apply includes_char.
Qed.

Lemma repairMarkdown_escaped_hash_witness :
  repairMarkdown (JS.join "\#" ["Stufe I"; "II"; "III"]) = "Stufe I-II-III".
Proof. apply (repairMarkdown_escaped_hash ["Stufe I"; "II"; "III"]). by repeat constructor. Defined.

(** ** Identifiers *)

Lemma split_without c s :
  Forall (λ seg, JS.all (λ d, negb (Ascii.eqb c d)) seg = true) (JS.split c s).
Proof.
  induction s as [|d s IH]; simpl; [by repeat constructor |].
  destruct (Ascii.eqb d c) eqn:E; [by constructor |].
  destruct (JS.split c s) as [|seg segs].
  - constructor; [|done]. by rewrite all_cons, Ascii.eqb_sym, E.
  - apply Forall_cons in IH as [Hseg Hsegs]. constructor; [|done].
    by rewrite all_cons, Ascii.eqb_sym, E, Hseg.
Qed.

Lemma split_plain c s :
  JS.all (λ d, negb (Ascii.eqb c d)) s = true → JS.split c s = [s].
Proof.
  induction s as [|d s IH]; [done |].
  rewrite all_cons. intros [Hd Hs]%andb_true_iff. apply negb_true_iff in Hd.
  simpl. by rewrite Ascii.eqb_sym, Hd, IH.
Qed.

Lemma split_app c dir rest :
  ∃ seg segs, JS.split c (dir +:+ String c rest) = seg :: segs ++ JS.split c rest.
Proof.
  induction dir as [|d dir (seg & segs & IH)].
  - exists "", []. rewrite str_app_nil_l. simpl. by rewrite Ascii.eqb_refl.
  - rewrite str_app_cons. simpl. rewrite IH. destruct (Ascii.eqb d c).
    + by exists "", (seg :: segs).
    + by exists (String d seg), segs.
Qed.

Lemma pop_split_file c dir file :
  JS.all (λ d, negb (Ascii.eqb c d)) file = true →
  JS.pop (JS.split c (dir +:+ String c file)) = file.
Proof.
  intros Hfile. destruct (split_app c dir file) as (seg & segs & ->).
  rewrite (split_plain c file Hfile). unfold JS.pop.
  by rewrite app_comm_cons, List.last_last.
Qed.

(** X13. The identifier of a page has no slash, whatever the link: the document
    of a page is a file of the output directory itself. *)
Theorem convertLinkToId_without_slash (linkTarget : string) :
  JS.includes (convertLinkToId linkTarget) "/" = false.
Proof.
  apply includes_char. unfold convertLinkToId.
  apply all_replace_empty, all_pop, split_without.
Qed.

(** X14. The identifier is the file name of the link without its first <<.html>>:
    the directories of the link, and the host of the wiki in any of its three
    spellings before it, have no part in it. *)
Theorem convertLinkToId_file_name (dir file : string) :
  JS.includes (dir +:+ "/" +:+ file) "ulisses-regelwiki.de/" = false →
  JS.includes file "/" = false →
  ∀ host, host ∈ [""; "https://ulisses-regelwiki.de/";
                  "http://ulisses-regelwiki.de/"; "ulisses-regelwiki.de/"] →
    convertLinkToId (host +:+ dir +:+ "/" +:+ file) = JS.replace file ".html" "".
Proof.
  intros Hhost Hfile%includes_char host Hin. unfold convertLinkToId.
  assert (normalizeLink (host +:+ dir +:+ "/" +:+ file) = dir +:+ "/" +:+ file) as ->.
  { repeat (apply elem_of_cons in Hin as [->|Hin]);
      [rewrite str_app_nil_l; by apply normalizeLink_fixed
      | by apply normalizeLink_https_prefix
      | by apply normalizeLink_http_prefix
      | by apply normalizeLink_bare_prefix
      | by apply elem_of_nil in Hin]. }
  change ("/" +:+ file) with (String "/" file).
  by rewrite pop_split_file.
Qed.

Lemma convertLinkToId_file_name_witness :
  convertLinkToId ("https://ulisses-regelwiki.de/" +:+ "index.php/zauber" +:+ "/"
                   +:+ "ignifaxius.html")
  = "ignifaxius".
Proof.
  apply (convertLinkToId_file_name "index.php/zauber" "ignifaxius.html");
    [reflexivity | reflexivity | set_solver].
Defined.

(** ** Titles *)

Lemma startsWith_split x y p :
  JS.startsWith (x +:+ y) p = true →
  JS.startsWith x p = true ∨ ∃ p2, p = x +:+ p2 ∧ JS.startsWith y p2 = true.
Proof.
  revert p. induction x as [|c x IH]; intros p.
  - rewrite str_app_nil_l. intros H. right. by exists p.
  - destruct p as [|d p]; [by left |].
    rewrite str_app_cons. simpl. intros [Hc H]%andb_true_iff.
    apply Ascii.eqb_eq in Hc as ->. rewrite Ascii.eqb_refl. simpl.
    destruct (IH p H) as [Hx | (p2 & -> & Hy)]; [by left |].
    right. by exists p2.
Qed.

Lemma startsWith_shorter p a q :
  JS.startsWith (p +:+ a) q = true → String.length q ≤ String.length p →
  JS.startsWith p q = true.
Proof.
  revert q. induction p as [|c p IH]; intros [|d q]; try done.
  - simpl. lia.
  - rewrite str_app_cons. simpl. intros [Hc H]%andb_true_iff Hlen.
    rewrite Hc. simpl. apply IH; [done | lia].
Qed.

Lemma suffixes_elem x q : x ≠ "" → q ∈ suffixes (x +:+ q).
Proof.
  induction x as [|c x IH]; [done |]. intros _. rewrite str_app_cons. simpl.
  destruct x as [|d x]; [rewrite str_app_nil_l; by left |].
  right. by apply IH.
Qed.

Lemma includes_tail c s pat :
  JS.includes (String c s) pat = false → JS.includes s pat = false.
Proof.
  unfold JS.includes. rewrite (cut_unfold pat (String c s)).
  destruct (JS.startsWith (String c s) pat); [done |].
  by destruct (JS.cut pat s) as [[??]|].
Qed.

Lemma includes_startsWith s pat :
  JS.includes s pat = false → JS.startsWith s pat = false.
Proof.
  unfold JS.includes. rewrite cut_unfold. by destruct (JS.startsWith s pat).
Qed.

(** The first occurrence of a pattern that does not overlap itself is the
    one after a text without it. *)
Lemma cut_first pat b a :
  borderFree pat = true → JS.includes b pat = false →
  JS.cut pat (b +:+ pat +:+ a) = Some (b, a).
Proof.
  intros Hfree. induction b as [|c b IH]; intros Hb.
  - rewrite str_app_nil_l. apply cut_here.
  - rewrite cut_unfold.
    destruct (JS.startsWith (String c b +:+ pat +:+ a) pat) eqn:E.
    + exfalso. apply startsWith_split in E as [E | (q & Hq & E)].
      * apply includes_startsWith in Hb. congruence.
      * destruct q as [|d q].
        { rewrite str_app_nil_r in Hq. subst pat.
          apply includes_startsWith in Hb.
          pose proof (startsWith_app (String c b) "") as H.
          rewrite str_app_nil_r in H. congruence. }
        apply startsWith_shorter in E;
          [|rewrite Hq, str_length_app; simpl; lia].
        unfold borderFree in Hfree. rewrite forallb_forall in Hfree.
        assert (In (String d q) (suffixes pat)) as Hin.
        { apply list_elem_of_In. rewrite Hq at 1. by apply suffixes_elem. }
        apply Hfree in Hin. simpl in Hin. apply negb_true_iff in Hin. congruence.
    + rewrite str_app_cons, IH by (by apply includes_tail in Hb). done.
Qed.

(** X15. The suffix of the wiki's titles is removed where it first stands: from
    a title that has it after a text without it, the text and what follows
    the suffix are left. *)
Theorem sanitizeTitle_removes_suffix (name rest : string) :
  JS.includes name " - DSA Regel Wiki" = false →
  sanitizeTitle (name +:+ " - DSA Regel Wiki" +:+ rest) = name +:+ rest.
Proof.
  intros Hname. unfold sanitizeTitle, JS.replace.
  by rewrite cut_first.
Qed.

Lemma sanitizeTitle_removes_suffix_witness :
  sanitizeTitle ("Kampf" +:+ " - DSA Regel Wiki" +:+ "") = "Kampf" +:+ "".
Proof. by apply sanitizeTitle_removes_suffix. Defined.

(** ** The files of a run *)

Lemma emits_bind P {A B} (m : M A) (f : A → M B) :
  emits P m → (∀ a, emits P (f a)) → emits P (m ≫= f).
Proof.
  intros Hm Hf st. unfold mbind, M_bind. destruct (Hm st) as (tr1 & H1 & Hc1).
  destruct (m st) as [a st1|e st1|st1]; simpl in *; [|by eauto..].
  destruct (Hf a st1) as (tr2 & H2 & Hc2). exists (tr1 ++ tr2).
  rewrite H2, H1, (assoc_L (++)). split; [done |]. by apply Forall_app.
Qed.

Lemma emits_ret P {A} (a : A) : emits P (mret a).
Proof. intros st. exists []. simpl. by rewrite (right_id_L [] (++)). Qed.

Lemma emits_emit (P : Event → Prop) ev : P ev → emits P (emit ev).
Proof. intros Hev st. exists [ev]. split; [done |]. by repeat constructor. Qed.

Lemma emits_writeFileSync (P : Event → Prop) w path content :
  (∀ ok, P (WriteFile path content ok)) → emits P (writeFileSync w path content).
Proof.
  intros HP st. unfold writeFileSync.
  destruct (writable w path); simpl; (eexists; split; [done |]);
    by repeat constructor.
Qed.

Lemma emits_parseSite w link : emits isDocument (parseSite w link).
Proof.
  intros st. rewrite parseSite_eq. simpl.
  assert (∃ tr, trace st ++ [Goto (PREFIX +:+ link)] = trace st ++ tr
                ∧ Forall isDocument tr)
    as Hopened by (eexists; split; [done | by repeat constructor]).
  destruct (evaluate w _) as [content|]; [|done].
  destruct (decodeURIComponent w _) as [decoded|]; [|done].
  destruct (normalizeMarkdown _) as [[links nm]|e]; [|done].
  destruct (breadcrumbLinks _) as [crumbs|e]; [|done].
  destruct (prettier_format w _) as [formatted|]; [|done].
  assert (∀ content ok,
            isDocument (WriteFile (path_join OUTPUT_DIRECTORY
                                     ((ID_PREFIX +:+ convertLinkToId decoded) +:+ ".md"))
                          content ok)) as Hdoc.
  { intros c ok. exists (convertLinkToId decoded). split; [|apply includes_char].
    - unfold path_join. by rewrite !str_app_assoc.
    - apply all_replace_empty, all_pop, split_without. }
  destruct (writable w _); simpl; (eexists; split; [done |]);
    repeat constructor; apply Hdoc.
Qed.

Lemma emits_seed w entries links entryPoints :
  emits isDocument (seed w entries links entryPoints).
Proof.
  revert links entryPoints. induction entries as [|e entries IH]; intros links eps; simpl.
  - apply emits_ret.
  - apply emits_bind; [apply emits_parseSite |]. intros [entryPoint siteLinks].
    apply emits_bind; [by apply emits_emit |]. intros _. apply IH.
Qed.

Lemma emits_drain w fuel i links : emits isDocument (drain w fuel i links).
Proof.
  revert i links. induction fuel as [|fuel IH]; intros i links; simpl.
  - intros st. exists []. simpl. by rewrite (right_id_L [] (++)).
  - destruct (links !! i) as [l|]; [|apply emits_ret].
    intros st. case_bool_decide as Hvis; [apply IH |].
    clear Hvis. revert st. apply emits_bind; [by apply emits_emit |]. intros _.
    apply emits_bind; [apply emits_parseSite |]. intros [entry newLinks].
    apply IH.
Qed.

(** X16. Whatever the site and however the run ends, every file that [main]
    writes or tries to write is a file <<dsa-rule-..md>> of the output
    directory itself: the name that follows the directory has no slash. *)
Theorem files_in_output_directory (w : World) (fuel : nat) :
  Forall isDocument (trace (final (main w fuel initial))).
Proof.
  assert (emits isDocument (main w fuel)) as H.
  { unfold main, crawl.
    apply emits_bind; [apply emits_seed |]. intros [links entryPoints].
    apply emits_bind.
    { apply emits_writeFileSync. intros ok. by exists "start". }
    intros _. apply emits_bind; [apply emits_drain |]. intros _.
    by apply emits_emit. }
  destruct (H initial) as (tr & -> & Htr). done.
Qed.

(** ** Replacement patterns *)

Lemma getSubstitution_app matched before after x y :
  JS.all (λ c, negb (Ascii.eqb c "$")) x = true →
  JS.getSubstitution matched before after (x +:+ y)
  = x +:+ JS.getSubstitution matched before after y.
Proof.
  induction x as [|c x IH]; [by rewrite !str_app_nil_l |].
  rewrite all_cons. intros [Hc Hx]%andb_true_iff. apply negb_true_iff in Hc.
  rewrite !str_app_cons. simpl. rewrite Hc. by rewrite IH.
Qed.

(** X17. The new markdown of a link is given to [replace] as a replacement
    pattern: of two dollar signs in the text of a link one is left. *)
Theorem rewriteLink_two_dollars (body before after x y : string) (l : Link.t) :
  Link.text l = x +:+ "$$" +:+ y →
  JS.all (λ c, negb (Ascii.eqb c "$")) x = true →
  JS.all (λ c, negb (Ascii.eqb c "$")) y = true →
  JS.all (λ c, negb (Ascii.eqb c "$")) (Link.link l) = true →
  JS.cut (mdLink (Link.text l) (Link.wholeLink l)) body = Some (before, after) →
  rewriteLink body l
  = before +:+ mdLink (x +:+ "$" +:+ y) (ID_PREFIX +:+ convertLinkToId (Link.link l))
      +:+ after.
Proof.
  intros Ht Hx Hy Hu Hcut. unfold rewriteLink, JS.replace.
  change ("[" +:+ Link.text l +:+ "](" +:+ Link.wholeLink l +:+ ")")
    with (mdLink (Link.text l) (Link.wholeLink l)).
  rewrite Hcut, Ht. do 2 f_equal. unfold mdLink.
  change ("[" +:+ ?s) with (String "[" s). cbn [JS.getSubstitution].
  change (negb ("[" =? "$")%char) with true. cbv iota.
  change (if ("[" =? "$")%char then ?a else ?b) with b.
  rewrite !str_app_assoc, getSubstitution_app by done.
  change ("$$" +:+ ?s) with (String "$" (String "$" s)). cbn [JS.getSubstitution].
  rewrite Ascii.eqb_refl. rewrite getSubstitution_app by done.
  rewrite getSubstitution_plain; [done |].
  change ("](" +:+ ?s) with (String "]" (String "(" s)).
  change (ID_PREFIX +:+ ?s) with ("dsa-rule-" +:+ s).
  rewrite !all_cons, str_all_app, str_all_app.
  by rewrite (all_convertLinkToId _ _ Hu).
Qed.

Lemma rewriteLink_two_dollars_witness :
  rewriteLink "Preis: [$$ 5](index.php/preise.html)."
    {| Link.text := "" +:+ "$$" +:+ " 5"; Link.wholeLink := "index.php/preise.html";
       Link.link := "index.php/preise.html" |}
  = "Preis: " +:+ mdLink ("" +:+ "$" +:+ " 5")
                   (ID_PREFIX +:+ convertLinkToId "index.php/preise.html")
      +:+ ".".
Proof. by apply rewriteLink_two_dollars. Defined.

(** ** The earlier revision of the normaliser *)

(** X18. The earlier revision removes the host of the wiki when a scheme stands
    before it, and leaves a link that starts with the bare host as it is;
    the third call of [replace] of the later revision removes that host
    too. *)
Theorem normalizeLink_v1_bare_host (path : string) :
  JS.includes path "ulisses-regelwiki.de/" = false →
  normalizeLink_v1 ("https://ulisses-regelwiki.de/" +:+ path) = path
  ∧ normalizeLink_v1 ("http://ulisses-regelwiki.de/" +:+ path) = path
  ∧ normalizeLink_v1 ("ulisses-regelwiki.de/" +:+ path)
    = "ulisses-regelwiki.de/" +:+ path
  ∧ normalizeLink ("ulisses-regelwiki.de/" +:+ path) = path.
Proof.
  intros H.
  assert (JS.includes path "https://ulisses-regelwiki.de/" = false) as H1
    by apply (includes_suffix path "https://" _ H).
  assert (JS.includes path "http://ulisses-regelwiki.de/" = false) as H2
    by apply (includes_suffix path "http://" _ H).
  unfold normalizeLink_v1. repeat split.
  - by rewrite replace_here, replace_absent.
  - rewrite (replace_absent _ "https://ulisses-regelwiki.de/")
      by search_through_literal H1.
    apply replace_here.
  - rewrite (replace_absent _ "https://ulisses-regelwiki.de/")
      by search_through_literal H1.
    rewrite (replace_absent _ "http://ulisses-regelwiki.de/")
      by search_through_literal H2.
    done.
  - by apply normalizeLink_bare_prefix.
Qed.

Lemma normalizeLink_v1_bare_host_witness :
  normalizeLink_v1 ("ulisses-regelwiki.de/" +:+ "index.php/regeln.html")
  = "ulisses-regelwiki.de/" +:+ "index.php/regeln.html"
  ∧ normalizeLink ("ulisses-regelwiki.de/" +:+ "index.php/regeln.html")
    = "index.php/regeln.html".
Proof.
  split; by apply (normalizeLink_v1_bare_host "index.php/regeln.html").
Defined.

(** ** Texts with many links *)

Lemma linksText_shape items post :
  Forall (λ '(pre, t, u), plainText pre = true) items → plainText post = true →
  ∃ a, plainText a = true
       ∧ (linksText items post = a ∨ ∃ b, linksText items post = a +:+ String "[" b).
Proof.
  intros Hitems Hpost. destruct Hitems as [|[[pre t] u] rest Hpre _]; simpl.
  - exists post. by split; [|left].
  - exists pre. split; [done |]. right. unfold mdLink.
    eexists. reflexivity.
Qed.

Lemma matchHere_regexMdLinks_before t u a rest :
  t ≠ "" → plainText t = true → plainText u = true → plainText a = true →
  (rest = a ∨ ∃ b, rest = a +:+ String "[" b) →
  Regex.matchHere regexMdLinks (mdLink t u +:+ rest)
  = Some {| Regex.before := ""; Regex.matched := mdLink t u;
            Regex.captures := [t; "(" +:+ u +:+ ")"]; Regex.after := rest |}.
Proof.
  intros Ht Hpt Hpu Ha [-> | (b & ->)];
    [by apply matchHere_regexMdLinks_text |].
  assert (String "(" (u +:+ String ")" (a +:+ String "[" b))
          = String "(" (u +:+ String ")" a) +:+ String "[" b) as E
    by (by rewrite str_app_cons, !str_app_assoc).
  rewrite mdLink_app. unfold Regex.matchHere, regexMdLinks.
  destruct t as [|d t]; [done |].
  pose proof Hpt as Hpt'. unfold plainText in Hpt'. rewrite all_cons in Hpt'.
  apply andb_true_iff in Hpt' as [Hd Hpt'].
  cbn [Regex.run]. rewrite Ascii.eqb_refl, str_app_cons.
  rewrite (plain_noneOf "[" d) by done.
  erewrite star_app_some; [reflexivity | by apply plainText_noneOf |].
  rewrite (star_cons_true _ "]") by done.
  rewrite E.
  rewrite (star_none_stop _ (Ascii.eqb "]")); [| by intros c s' -> |
    by apply no_bracket_after | done | done].
  rewrite <- E.
  rewrite !Ascii.eqb_refl.
  erewrite star_app_some; [reflexivity | by apply plainText_noneOf |].
  rewrite star_stop by done. rewrite Ascii.eqb_refl.
  set (post := a +:+ String "[" b).
  do 2 f_equal.
  - transitivity (Regex.consumed (mdLink (String d t) u +:+ post) post);
      [by rewrite mdLink_app | apply consumed_app].
  - cbn [app]. f_equal; [|f_equal].
    + apply (consumed_app (String d t)).
    + transitivity (Regex.consumed (("(" +:+ u +:+ ")") +:+ post) post);
        [by rewrite !str_app_assoc | apply consumed_app].
Qed.

Lemma scan_links post items : ∀ fuel,
  Forall (λ '(pre, t, u), t ≠ "" ∧ plainText pre = true ∧ plainText t = true
                          ∧ plainTarget u = true) items →
  plainText post = true →
  String.length (linksText items post) < fuel →
  map Regex.matched (Regex.scan fuel regexMdLinks (linksText items post)).1
  = map (λ '(_, t, u), mdLink t u) items.
Proof.
  induction items as [|[[pre t] u] items IH]; intros fuel Hitems Hpost Hfuel.
  { destruct fuel as [|fuel]; [done |]. simpl. unfold regexMdLinks.
    by rewrite exec_without by (by apply plainText_without). }
  apply Forall_cons in Hitems as [(Ht & Hpre & Hpt & Hu) Hitems].
  destruct fuel as [|fuel]; [lia |].
  assert (∃ a, plainText a = true
               ∧ (linksText items post = a
                  ∨ ∃ b, linksText items post = a +:+ String "[" b))
    as (a & Ha & Hshape).
  { apply linksText_shape; [|done]. eapply Forall_impl; [exact Hitems |].
    by intros [[??]?] (_ & ? & _). }
  pose proof (matchHere_regexMdLinks_before t u a (linksText items post) Ht Hpt
                (plainTarget_plainText u Hu) Ha Hshape) as Hm.
  cbn [linksText] in *. set (rest := linksText items post) in *.
  specialize (IH fuel Hitems Hpost).
  cbn [Regex.scan]. unfold regexMdLinks in *.
  rewrite (exec_skip "[" _ pre _ _ (plainText_without "[" pre eq_refl Hpre) Hm).
  cbn [Regex.matched Regex.after]. unfold mdLink at 1.
  change ("[" +:+ ?x) with (String "[" x).
  rewrite !str_length_app in Hfuel.
  destruct (Regex.scan fuel _ rest) as [ms tail].
  simpl in *. f_equal. apply IH. lia.
Qed.

Lemma parseLinks_loop_links items : ∀ results,
  Forall (λ '(pre, t, u), t ≠ "" ∧ plainText pre = true ∧ plainText t = true
                          ∧ plainTarget u = true) items →
  parseLinks_loop (map (λ '(_, t, u), mdLink t u) items) results
  = Ok (results
        ++ map (λ '(_, t, u), {| Link.text := t; Link.wholeLink := u;
                                 Link.link := normalizeLink u |}) items).
Proof.
  induction items as [|[[pre t] u] items IH]; intros results Hitems.
  { simpl. by rewrite (right_id_L [] (++)). }
  apply Forall_cons in Hitems as [(Ht & Hpre & Hpt & Hu) Hitems].
  cbn [map parseLinks_loop]. unfold destructure at 1.
  rewrite exec_unfold, matchHere_singleMatch by done.
  cbn [Regex.captures nth]. rewrite IH by done.
  by rewrite <- (assoc_L (++)).
Qed.

(** X19. [parseLinks] finds every link of a text, in the order in which they
    stand: for links with plain texts and plain targets on one line, each
    after plain text, the result has one entry per link, with the text, the
    target as written and the target normalised. *)
Theorem parseLinks_complete (items : list (string * string * string))
    (post : string) :
  Forall (λ '(pre, t, u), t ≠ "" ∧ plainText pre = true ∧ plainText t = true
                          ∧ plainTarget u = true) items →
  plainText post = true →
  parseLinks (linksText items post)
  = Ok (map (λ '(_, t, u), {| Link.text := t; Link.wholeLink := u;
                              Link.link := normalizeLink u |}) items).
Proof.
  intros Hitems Hpost. unfold parseLinks, Regex.match_g, Regex.matches.
  rewrite scan_links by (done || lia).
  by rewrite parseLinks_loop_links.
Qed.

Lemma parseLinks_complete_witness :
  parseLinks "Siehe [Kampf](index.php/kampf.html) und [Magie](http://ulisses-regelwiki.de/index.php/magie.html)."
  = Ok [{| Link.text := "Kampf"; Link.wholeLink := "index.php/kampf.html";
           Link.link := "index.php/kampf.html" |};
        {| Link.text := "Magie";
           Link.wholeLink := "http://ulisses-regelwiki.de/index.php/magie.html";
           Link.link := "index.php/magie.html" |}].
Proof.
  apply (parseLinks_complete
           [("Siehe ", "Kampf", "index.php/kampf.html");
            (" und ", "Magie", "http://ulisses-regelwiki.de/index.php/magie.html")]
           ".").
  - by repeat constructor.
  - reflexivity.
Defined.

(** ** Bold text *)

Lemma star_none_closed {A} p (Q : string → Prop) s (k : string → option A) :
  (∀ c s', Q (String c s') → Q s') → (∀ s', Q s' → k s' = None) → Q s →
  Regex.star p s k = None.
Proof.
  intros Hclosed Hk. induction s as [|c s IH]; intros HQ; simpl; [by apply Hk |].
  rewrite (IH (Hclosed _ _ HQ)), (Hk _ HQ). by destruct (p c).
Qed.

(** An asterisk that no asterisk follows opens no emphasis. *)
Lemma matchHere_regexEmphasis_unclosed s :
  JS.all (λ d, negb (Ascii.eqb "*" d)) s = true →
  Regex.matchHere regexEmphasis (String "*" s) = None.
Proof.
  set (Q := λ s : string, JS.all (λ d, negb (Ascii.eqb "*" d)) s = true).
  assert (∀ c s', Q (String c s') → Q s') as Hclosed.
  { intros c s'. unfold Q. rewrite all_cons. by intros [_ ?]%andb_true_iff. }
  intros Hs. unfold Regex.matchHere, regexEmphasis. cbn [Regex.run].
  rewrite Ascii.eqb_refl.
  apply (star_none_closed _ Q); [done | | done]. intros s1 H1.
  apply (star_none_closed _ Q); [done | | done]. intros s2 H2.
  destruct s2 as [|c s2]; [done |]. destruct (noneOf "*" c); [|done].
  apply (star_none_closed _ Q); [done | | by eapply Hclosed]. intros s3 H3.
  apply (star_none_closed _ Q); [done | | done]. intros s4 H4.
  destruct s4 as [|d s4]; [done |].
  unfold Q in H4. rewrite all_cons in H4. apply andb_true_iff in H4 as [Hd _].
  apply negb_true_iff in Hd. by rewrite Hd.
Qed.

Lemma exec_prefix c r pre s :
  JS.all (λ d, negb (Ascii.eqb c d)) pre = true →
  Regex.exec (Chr c @@ r) (pre +:+ s)
  = match Regex.exec (Chr c @@ r) s with
    | Some m => Some {| Regex.before := pre +:+ Regex.before m;
                        Regex.matched := Regex.matched m;
                        Regex.captures := Regex.captures m;
                        Regex.after := Regex.after m |}
    | None => None
    end.
Proof.
  intros Hpre. induction pre as [|d pre IH].
  - rewrite str_app_nil_l. destruct (Regex.exec _ s) as [[]|]; done.
  - rewrite all_cons in Hpre. apply andb_true_iff in Hpre as [Hd Hpre].
    apply negb_true_iff in Hd.
    rewrite str_app_cons, exec_unfold, matchHere_Chr_other, (IH Hpre) by done.
    by destruct (Regex.exec _ s).
Qed.

(** X20. The case of the comment in [parseSite]: the spaces and line feeds
    between the two asterisks that open bold text and the text are removed,
    when the text has no asterisk and starts with neither, and the text
    around has no asterisk and no backslash. *)
Theorem repairMarkdown_bold (pre sp nls content post : string) :
  JS.includes pre "*" = false → JS.includes post "*" = false →
  JS.includes (pre +:+ content +:+ post) "\" = false →
  JS.all (oneOf " ") sp = true → JS.all (oneOf JS.nl) nls = true →
  JS.includes content "*" = false →
  match content with
  | EmptyString => False
  | String d _ => oneOf " " d = false ∧ oneOf JS.nl d = false
  end →
  repairMarkdown (pre +:+ "**" +:+ sp +:+ nls +:+ content +:+ "**" +:+ post)
  = pre +:+ "**" +:+ content +:+ "**" +:+ post.
Proof.
  intros Hpre%includes_char Hpost%includes_char Hback%includes_char Hsp Hnls
    Hc%includes_char Hhead.
  destruct content as [|d c]; [done |]. destruct Hhead as [Hd1 Hd2].
  rewrite !without_app in Hback. apply andb_true_iff in Hback as [Hb1 Hb23].
  apply andb_true_iff in Hb23 as [Hb2 Hb3].
  assert (JS.all (noneOf "*") (String d c) = true) as Hc'.
  { revert Hc. apply all_impl. intros x Hx. unfold noneOf. simpl.
    by rewrite orb_false_r, Ascii.eqb_sym. }
  unfold repairMarkdown.
  assert (Regex.replace_g regexEmphasis
            (λ _ caps, "*" +:+ nth 0 caps "" +:+ "*")
            (pre +:+ "**" +:+ sp +:+ nls +:+ String d c +:+ "**" +:+ post)
          = pre +:+ "**" +:+ String d c +:+ "**" +:+ post) as ->.
  { unfold Regex.replace_g, Regex.matches. cbn [Regex.scan].
    pose proof (matchHere_regexEmphasis sp nls d c (String "*" post)
                  Hsp Hnls Hd1 Hd2 Hc') as Hm.
    change ("**" +:+ sp +:+ nls +:+ String d c +:+ "**" +:+ post)
      with (String "*" (String "*" (sp +:+ nls +:+ String d c
                                    +:+ String "*" (String "*" post)))).
    set (inner := String "*" (sp +:+ nls +:+ String d c
                              +:+ String "*" (String "*" post))) in *.
    assert (Regex.matchHere regexEmphasis (String "*" inner) = None) as Hfirst
      by done.
    unfold regexEmphasis in *.
    rewrite (exec_prefix "*" _ pre _ Hpre), exec_unfold, Hfirst, exec_unfold, Hm.
    cbn [Regex.matched Regex.after Regex.before Regex.captures].
    destruct (Regex.scan _ _ (String "*" post)) as [ms tail] eqn:Hs.
    assert (ms = [] ∧ tail = String "*" post) as [-> ->].
    { destruct (String.length _); simpl in Hs; [by simplify_eq |].
      pose proof (matchHere_regexEmphasis_unclosed post Hpost) as Hlast.
      unfold regexEmphasis in Hlast.
      rewrite Hlast, exec_without in Hs by done. by simplify_eq. }
    simpl. rewrite str_app_assoc. f_equal.
    change (String "*" (String "*" ((String d c +:+ "*") +:+ String "*" post))
            = String "*" (String "*" (String d c +:+ String "*" (String "*" post)))).
    by rewrite str_app_assoc. }
  unfold regexEscapedHash. apply replace_g_without.
  change ("**" +:+ String d c +:+ "**" +:+ post)
    with (String "*" (String "*" (String d c +:+ String "*" (String "*" post)))).
  rewrite without_app, !all_cons, without_app, Hb1, Hb2, !all_cons, Hb3.
  reflexivity.
Qed.

Lemma repairMarkdown_bold_witness :
  repairMarkdown ("" +:+ "**" +:+ "" +:+ JS.nl +:+ "Lorem ipsum:" +:+ "**" +:+ "")
  = "" +:+ "**" +:+ "Lorem ipsum:" +:+ "**" +:+ "".
Proof.
  apply (repairMarkdown_bold "" "" JS.nl "Lorem ipsum:" ""); try reflexivity.
  by split.
Defined.
